(** * Verification of [generate_pea_protein_prospects.py]

    A shallow embedding of the prospect collector: the text helpers of the
    Python standard library that the script calls, the regular expressions it
    uses (with a matcher for them), the row parser, the filter and
    de-duplicator, and the collection loop around the external
    text-generation call.

    Conventions.
    - A Python [str] is a list of code points.  The embedding covers the code
      points 0..255, held in Rocq's [ascii]; the character tables below are
      those of CPython on that range.
    - The set [seen] is a [gset] of keys.  The script mutates it in place, so
      every function that receives it returns the updated set.
    - The generative service is an oracle: a function from the call number and
      the arguments of [generate_batch] to a reply.  Building the prompt and
      extracting the text of the response are on the side of the oracle.
    - Messages, pauses and calls of the loop are recorded in a log; the banner
      printed at the start and the writing of the file are left out. *)

From Stdlib Require Import Ascii String List Bool Arith NArith Lia.
From stdpp Require Import base decidable option list gmap strings.
Import ListNotations.

Local Open Scope nat_scope.

(** Python strings as lists of code points. *)
Abbreviation str := (list ascii).

(** A string literal of the source, as a [str]. *)
Definition py (s : string) : str := list_ascii_of_string s.

(** The double quote character (code point 34). *)
Definition dquote : ascii := "034"%char.

(** ** Character tables and [str] methods *)
Module PyStr.

Definition code (c : ascii) : N := N_of_ascii c.

Definition between (lo hi : N) (c : ascii) : bool :=
  ((lo <=? code c) && (code c <=? hi))%N.

(** [Py_UNICODE_ISSPACE]: what [str.strip()], [str.split()] and the
    pattern [\s] call white space. *)
Definition isspace (c : ascii) : bool :=
  between 9 13 c || between 28 32 c || between 133 133 c || between 160 160 c.

(** [Py_UNICODE_ISLINEBREAK]: where [str.splitlines()] cuts. *)
Definition islinebreak (c : ascii) : bool :=
  between 10 13 c || between 28 30 c || between 133 133 c.

(** [Py_UNICODE_ISALPHA]. *)
Definition isalpha_char (c : ascii) : bool :=
  between 65 90 c || between 97 122 c || between 170 170 c
  || between 181 181 c || between 186 186 c || between 192 214 c
  || between 216 246 c || between 248 255 c.

(** The word characters of [\b]: alphanumerics and the underscore. *)
Definition isword (c : ascii) : bool :=
  isalpha_char c || between 48 57 c || between 95 95 c
  || between 178 179 c || between 185 185 c || between 188 190 c.

(** [Py_UNICODE_TOLOWER]. *)
Definition lower_char (c : ascii) : ascii :=
  if between 65 90 c || between 192 214 c || between 216 222 c
  then ascii_of_N (code c + 32) else c.

(** [str.lower()]. *)
Definition lower (s : str) : str := map lower_char s.

Fixpoint lstrip_by (p : ascii -> bool) (s : str) : str :=
  match s with
  | [] => []
  | c :: s' => if p c then lstrip_by p s' else s
  end.

Definition rstrip_by (p : ascii -> bool) (s : str) : str :=
  rev (lstrip_by p (rev s)).

Definition strip_by (p : ascii -> bool) (s : str) : str :=
  rstrip_by p (lstrip_by p s).

(** [s.strip()]. *)
Definition strip (s : str) : str := strip_by isspace s.

(** [s.strip(q)] with [q] the one-character string holding a double quote. *)
Definition strip_quotes (s : str) : str :=
  strip_by (fun c => bool_decide (c = dquote)) s.

(** [s.isalpha()]: every character alphabetic and at least one character. *)
Definition isalpha (s : str) : bool :=
  match s with
  | [] => false
  | _ => forallb isalpha_char s
  end.

(** [s.split()]: the maximal runs of characters that are not white space.
    [word] is the run being read. *)
Fixpoint split_go (s : str) (word : str) : list str :=
  match s with
  | [] => match word with [] => [] | _ => [word] end
  | c :: s' =>
      if isspace c
      then match word with
           | [] => split_go s' []
           | _ => word :: split_go s' []
           end
      else split_go s' (word ++ [c])
  end.

Definition split (s : str) : list str := split_go s [].

(** [s.splitlines()]: cut at every line boundary, a carriage return followed
    by a line feed counting once; no empty last line. *)
Fixpoint splitlines_go (s : str) (line : str) : list str :=
  match s with
  | [] => match line with [] => [] | _ => [line] end
  | c :: s' =>
      if bool_decide (c = "013"%char)
      then match s' with
           | c' :: s'' =>
               if bool_decide (c' = "010"%char)
               then line :: splitlines_go s'' []
               else line :: splitlines_go s' []
           | [] => line :: splitlines_go s' []
           end
      else if islinebreak c then line :: splitlines_go s' []
      else splitlines_go s' (line ++ [c])
  end.

Definition splitlines (s : str) : list str := splitlines_go s [].

End PyStr.

(** ** Regular expressions

    The syntax covers what the three patterns of the script need; the matcher
    is a backtracking one, as CPython's, written with a continuation. *)
Module Re.

Inductive regex : Type :=
| Eps                      (* the empty pattern *)
| Lit (c : ascii)          (* a literal character *)
| NotLit (c : ascii)       (* [^c] *)
| Space                    (* \s *)
| Bos                      (* ^  (no MULTILINE) *)
| Eos                      (* $  (no MULTILINE) *)
| WordB                    (* \b *)
| Cat (r1 r2 : regex)
| Star (r : regex)         (* r*, greedy *)
| Ahead (r : regex).       (* (?=r) *)

(** r+ *)
Definition Plus (r : regex) : regex := Cat r (Star r).

(** A run of literal characters. *)
Fixpoint Lits (s : str) : regex :=
  match s with
  | [] => Eps
  | c :: s' => Cat (Lit c) (Lits s')
  end.

(** A position: the character before it, if any, and the text after it. *)
Definition pos : Type := option ascii * str.

(** Comparison of a text character with a pattern character, under
    [re.IGNORECASE] when [ic] is set. *)
Definition char_eqb (ic : bool) (c a : ascii) : bool :=
  if ic then bool_decide (PyStr.lower_char a = PyStr.lower_char c)
  else bool_decide (a = c).

Definition is_word_opt (o : option ascii) : bool :=
  match o with Some c => PyStr.isword c | None => false end.

(** [$] without MULTILINE: the end of the text, or just before a line feed
    that ends the text. *)
Definition at_eos (s : str) : bool :=
  match s with
  | [] => true
  | [c] => bool_decide (c = "010"%char)
  | _ => false
  end.

(** [\b]: exactly one side of the position is a word character. *)
Definition at_wordb (prev : option ascii) (s : str) : bool :=
  xorb (is_word_opt prev) (is_word_opt (head s)).

(** The rounds of a star whose body is matched by [body]: at most [n] rounds,
    one more round being tried before stopping (the star is greedy); a round
    must consume text. *)
Fixpoint star_rounds {A : Type}
    (body : option ascii -> str -> (option ascii -> str -> option A) -> option A)
    (k : option ascii -> str -> option A)
    (n : nat) (prev : option ascii) (s : str) {struct n} : option A :=
  match n with
  | O => k prev s
  | S n' =>
      match body prev s
              (fun p' s' =>
                 if length s' <? length s then star_rounds body k n' p' s'
                 else None) with
      | Some x => Some x
      | None => k prev s
      end
  end.

(** [rmatch ic r prev s k]: match [r] at the position [(prev, s)] and hand the
    position after it to [k]; alternatives are tried in the order of CPython.
    A star on a text of [n] characters has at most [n] rounds. *)
Fixpoint rmatch {A : Type} (ic : bool) (r : regex) (prev : option ascii)
    (s : str) (k : option ascii -> str -> option A) {struct r} : option A :=
  match r with
  | Eps => k prev s
  | Lit c =>
      match s with
      | a :: s' => if char_eqb ic c a then k (Some a) s' else None
      | [] => None
      end
  | NotLit c =>
      match s with
      | a :: s' => if char_eqb ic c a then None else k (Some a) s'
      | [] => None
      end
  | Space =>
      match s with
      | a :: s' => if PyStr.isspace a then k (Some a) s' else None
      | [] => None
      end
  | Bos => match prev with None => k prev s | Some _ => None end
  | Eos => if at_eos s then k prev s else None
  | WordB => if at_wordb prev s then k prev s else None
  | Cat r1 r2 => rmatch ic r1 prev s (fun p' s' => rmatch ic r2 p' s' k)
  | Star r' => star_rounds (rmatch ic r') k (length s) prev s
  | Ahead r' =>
      match rmatch ic r' prev s (fun _ _ => Some tt) with
      | Some _ => k prev s
      | None => None
      end
  end.

(** A match of [r] at a position, reported as the text left after it. *)
Definition match_at (ic : bool) (r : regex) (prev : option ascii) (s : str)
  : option str :=
  rmatch ic r prev s (fun _ rest => Some rest).

(** [re.search(r, s)] as a truth value: a match at the leftmost position
    that has one. *)
Fixpoint search_from (ic : bool) (r : regex) (prev : option ascii) (s : str)
  : bool :=
  match match_at ic r prev s with
  | Some _ => true
  | None =>
      match s with
      | [] => false
      | c :: s' => search_from ic r (Some c) s'
      end
  end.

Definition search (ic : bool) (r : regex) (s : str) : bool :=
  search_from ic r None s.

(** [re.split(r, s)] for a pattern without groups.  Scanning left to right:
    [skip] counts the characters of the current match still to pass over and
    [field] is the piece being read.  A match that consumes nothing is passed
    over; the patterns of the script all consume their delimiter. *)
Fixpoint split_go (r : regex) (prev : option ascii) (s : str) (skip : nat)
    (field : str) : list str :=
  match s with
  | [] => [field]
  | c :: s' =>
      match skip with
      | S n => split_go r (Some c) s' n field
      | O =>
          match match_at false r prev s with
          | Some rest =>
              match length s - length rest with
              | O => split_go r (Some c) s' 0 (field ++ [c])
              | S n => field :: split_go r (Some c) s' n []
              end
          | None => split_go r (Some c) s' 0 (field ++ [c])
          end
      end
  end.

Definition split (r : regex) (s : str) : list str := split_go r None s 0 [].

(** [re.sub(r, repl, s)], with the same scan. *)
Fixpoint sub_go (r : regex) (repl : str) (prev : option ascii) (s : str)
    (skip : nat) : str :=
  match s with
  | [] => []
  | c :: s' =>
      match skip with
      | S n => sub_go r repl (Some c) s' n
      | O =>
          match match_at false r prev s with
          | Some rest =>
              match length s - length rest with
              | O => c :: sub_go r repl (Some c) s' 0
              | S n => repl ++ sub_go r repl (Some c) s' n
              end
          | None => c :: sub_go r repl (Some c) s' 0
          end
      end
  end.

Definition sub (r : regex) (repl : str) (s : str) : str :=
  sub_go r repl None s 0.

End Re.

Import Re.

(** ** Configuration *)

Definition TARGET_COUNT : nat := 1000.
Definition BATCH_SIZE : nat := 40.
Definition MAX_CALLS : nat := 40.
Definition AVOID_ROLLING_MAX : nat := 300.

(** A segment: title and description.  The loop only hands them on, so they
    stay opaque text. *)
Definition segment : Type := string * string.

Definition SEED_SEGMENTS : list segment :=
  [ ("Hersteller pflanzlicher Fleischalternativen",
     "Burger, Nuggets, Würstchen, Hack, Schnitzel; etablierte Marken & Private Label");
    ("Protein- & Functional-Food-Hersteller",
     "Sportnahrung, Shakes, Riegel, Complete Meals, RTD-Proteindrinks");
    ("Hersteller von Molkereialternativen",
     "Milchalternativen, Joghurts, Käsealternativen, Eis");
    ("Hersteller von Snacks und Backwaren",
     "Chips, Kekse, Riegel, Müsli/Cereals, Backwaren mit Protein");
    ("Tiernahrungshersteller (Pet Food)",
     "Hunde-/Katzenfutter, Premium & Spezialfutter");
    ("Lohnhersteller & Co-Packer Food/Drinks",
     "Produzieren im Auftrag – gut für schnelle Skalierung");
    ("Hersteller von Fertiggerichten & Convenience",
     "Bowls, Suppen, Saucen, Tiefkühlkost");
    ("B2B-Zutatenhändler / Distributoren",
     "Multiplikatoren für Markteintritt; EU-weit und global");
    ("Hersteller medizinischer / seniorengerechter Ernährung",
     "Klinik-/Seniorenernährung, proteinangereichert");
    ("Marken mit Verpackungsbedarf (Cross-Sell Packaging)",
     "Lebensmittel-/Getränkemarken, die auch Zutaten einsetzen könnten") ]%string.

(** ** Rows *)

(** The dictionaries built by [parse_csv_block] always carry the same six
    keys; a record holds their values. *)
Record row : Type := Row {
  Company : str;
  Segment : str;
  Country_Region : str;
  WhyRelevant : str;
  Website : str;
  Priority : str
}.

(** ** Normalisation and filtering *)

(** [re.sub(r"\s+", " ", name.strip().lower())] *)
Definition normalize_name (name : str) : str :=
  Re.sub (Plus Space) (py " ") (PyStr.lower (PyStr.strip name)).

(** The patterns of [looks_like_company], in the order of the source. *)
Definition bad_patterns : list regex :=
  [ Cat Bos (Lits (py "siehe"));
    Cat Bos (Cat (Lits (py "n/a")) Eos);
    Cat Bos (Lits (py "keine"));
    Cat Bos (Lits (py "unbekannt"));
    Cat Bos (Lits (py "sample"));
    Lits (py "http");
    Cat (Lits (py ".com")) WordB;
    Cat (Lits (py ".de")) WordB ].

Definition looks_like_company (name : str) : bool :=
  if existsb (fun bp => Re.search true bp name) bad_patterns then false
  else if (length (PyStr.split name) =? 1) && PyStr.isalpha name
          && (length name <=? 3)
  then false
  else true.

(** One round of the loop of [dedupe_and_filter], on the pair of the list
    [clean] and the set [seen]. *)
Definition dedupe_step (acc : list row * gset str) (r : row)
  : list row * gset str :=
  let key := normalize_name (Company r) in
  if bool_decide (key = []) || bool_decide (key ∈ acc.2) then acc
  else if looks_like_company (Company r)
       then (acc.1 ++ [r], {[ key ]} ∪ acc.2)
       else acc.

(** [dedupe_and_filter rows seen] returns [clean] and the set [seen] as the
    call leaves it. *)
Definition dedupe_and_filter (rows : list row) (seen : gset str)
  : list row * gset str :=
  foldl dedupe_step ([], seen) rows.

(** ** Parsing *)

(** The text after a delimiter that splits: any number of quoted stretches,
    then no further quote up to the end,
    [(?=(?:[^q]*q[^q]*q)*[^q]*$)] with [q] the double quote. *)
Definition balanced_tail : regex :=
  Cat (Star (Cat (Star (NotLit dquote))
                 (Cat (Lit dquote) (Cat (Star (NotLit dquote)) (Lit dquote)))))
      (Cat (Star (NotLit dquote)) Eos).

(** The delimiter pattern, for the comma and for the semicolon. *)
Definition delim_re (d : ascii) : regex := Cat (Lit d) (Ahead balanced_tail).

(** [[p.strip() for p in re.split(..., line)]] *)
Definition fields (d : ascii) (line : str) : list str :=
  map PyStr.strip (Re.split (delim_re d) line).

(** [parts[i].strip(q) if len(parts) > i else ""] *)
Definition column (parts : list str) (i : nat) : str :=
  match parts !! i with
  | Some p => PyStr.strip_quotes p
  | None => []
  end.

(** What one line contributes: a row, or nothing. *)
Definition parse_line (expected_cols : nat) (line : str) : option row :=
  if bool_decide (PyStr.strip line = []) then None
  else
    let parts := fields "," line in
    let parts :=
      if length parts <? expected_cols then fields ";" line else parts in
    if expected_cols <=? length parts
    then Some {| Company := column parts 0;
                 Segment := column parts 1;
                 Country_Region := column parts 2;
                 WhyRelevant := column parts 3;
                 Website := column parts 4;
                 Priority := column parts 5 |}
    else None.

(** The loop over the lines, appending to [rows]. *)
Definition parse_lines (expected_cols : nat) (lines : list str) : list row :=
  foldl (fun rows line =>
           match parse_line expected_cols line with
           | Some r => rows ++ [r]
           | None => rows
           end) [] lines.

Definition parse_csv_block (text : str) (expected_cols : nat) : list row :=
  parse_lines expected_cols (PyStr.splitlines text).

(** ** The external call *)

(** What a call of the service comes to: the text extracted from the
    response (empty when there is none), or an exception. *)
Inductive reply : Type :=
| Text (text : str)
| Raise.

(** The service, asked for the [n]-th time (counting from 0) about a segment
    with a list of names to avoid. *)
Definition collaborator : Type := nat -> segment -> list str -> reply.

(** [generate_batch]: [None] stands for the exception of the service. *)
Definition generate_batch (ask : collaborator) (n : nat) (seg : segment)
    (avoid_list : list str) : option (list row) :=
  match ask n seg avoid_list with
  | Raise => None
  | Text text =>
      match text with
      | [] => Some []
      | _ => Some (parse_csv_block text 6)
      end
  end.

(** ** The collection loop *)

(** What the loop does besides computing: calls, messages and pauses
    (in milliseconds). *)
Inductive event : Type :=
| ECall (n : nat) (seg : segment) (avoid_list : list str)
| EWarn (call : nat) (seg_title : string)
| EInfo (call : nat)
| EOk (added total : nat) (seg_title : string)
| ESleep (ms : nat)
| ESaved (n : nat).

Record state : Type := State {
  seen : gset str;
  results : list row;
  call_count : nat;
  seg_index : nat;
  log : list event
}.

Definition init : state :=
  {| seen := ∅; results := []; call_count := 0; seg_index := 0; log := [] |}.

(** How a run ends: normally, with an exception of the service, or (for the
    bounded iteration below) with the rounds allotted used up. *)
Inductive outcome : Type :=
| Returned (st : state)
| Raised (st : state)
| Unfinished (st : state).

(** [SEED_SEGMENTS[seg_index % len(SEED_SEGMENTS)]] *)
Definition current_segment (st : state) : segment :=
  nth (seg_index st mod length SEED_SEGMENTS) SEED_SEGMENTS (""%string, ""%string).

(** [results[-AVOID_ROLLING_MAX:]] *)
Definition last_n {A : Type} (n : nat) (l : list A) : list A :=
  drop (length l - n) l.

(** The loop condition. *)
Definition continues (target cap : nat) (st : state) : bool :=
  (length (results st) <? target) && (call_count st <? cap).

(** One round of the [while] loop. *)
Definition iteration (ask : collaborator) (st : state) : outcome :=
  let seg := current_segment st in
  let seg_index' := seg_index st + 1 in
  let avoid_list := map Company (last_n AVOID_ROLLING_MAX (results st)) in
  let called := log st ++ [ECall (call_count st) seg avoid_list] in
  match generate_batch ask (call_count st) seg avoid_list with
  | None =>
      Raised {| seen := seen st; results := results st;
                call_count := call_count st; seg_index := seg_index';
                log := called |}
  | Some batch =>
      let call_count' := call_count st + 1 in
      match batch with
      | [] =>
          Returned {| seen := seen st; results := results st;
                      call_count := call_count'; seg_index := seg_index';
                      log := called ++ [EWarn call_count' seg.1; ESleep 2000] |}
      | _ =>
          let '(batch_clean, seen') := dedupe_and_filter batch (seen st) in
          match batch_clean with
          | [] =>
              Returned {| seen := seen'; results := results st;
                          call_count := call_count'; seg_index := seg_index';
                          log := called ++ [EInfo call_count'] |}
          | _ =>
              let results' := results st ++ batch_clean in
              Returned {| seen := seen'; results := results';
                          call_count := call_count'; seg_index := seg_index';
                          log := called ++ [EOk (length batch_clean)
                                                (length results') seg.1;
                                            ESleep 800] |}
          end
      end
  end.

(** The variables of a round at the point where [dedupe_and_filter] has
    returned and [results.extend] is still to come: the state, with [seen]
    as the call left it, and [batch_clean].  [None] when the round does not
    come to that point, the service having raised or the batch being
    empty. *)
Definition after_filter (ask : collaborator) (st : state)
    : option (state * list row) :=
  let seg := current_segment st in
  let avoid_list := map Company (last_n AVOID_ROLLING_MAX (results st)) in
  match generate_batch ask (call_count st) seg avoid_list with
  | None => None
  | Some batch =>
      match batch with
      | [] => None
      | _ =>
          let '(batch_clean, seen') := dedupe_and_filter batch (seen st) in
          Some ({| seen := seen'; results := results st;
                   call_count := call_count st + 1;
                   seg_index := seg_index st + 1;
                   log := log st ++ [ECall (call_count st) seg avoid_list] |},
                batch_clean)
      end
  end.

(** The rest of such a round, from that point on. *)
Definition after_extend (seg : segment) (mid : state) (batch_clean : list row)
    : state :=
  match batch_clean with
  | [] =>
      {| seen := seen mid; results := results mid;
         call_count := call_count mid; seg_index := seg_index mid;
         log := log mid ++ [EInfo (call_count mid)] |}
  | _ =>
      let results' := results mid ++ batch_clean in
      {| seen := seen mid; results := results';
         call_count := call_count mid; seg_index := seg_index mid;
         log := log mid ++ [EOk (length batch_clean) (length results') seg.1;
                            ESleep 800] |}
  end.

(** The [while] loop, run for at most [rounds] rounds. *)
Fixpoint loop (ask : collaborator) (target cap : nat) (rounds : nat)
    (st : state) : outcome :=
  if continues target cap st then
    match rounds with
    | O => Unfinished st
    | S rounds' =>
        match iteration ask st with
        | Returned st' => loop ask target cap rounds' st'
        | other => other
        end
    end
  else Returned st.

(** The final trim [results[:TARGET_COUNT]] and the closing message. *)
Definition trim (target : nat) (st : state) : state :=
  let results' := take target (results st) in
  {| seen := seen st; results := results';
     call_count := call_count st; seg_index := seg_index st;
     log := log st ++ [ESaved (length results')] |}.

(** The collection for a given target and cap; every round makes a call, so
    [cap] rounds are all the loop can take. *)
Definition collect (ask : collaborator) (target cap : nat) : outcome :=
  match loop ask target cap cap init with
  | Returned st => Returned (trim target st)
  | other => other
  end.

(** [main]: the collection with the constants of the script; [results] of
    the state returned is what is written to the file. *)
Definition main (ask : collaborator) : outcome :=
  collect ask TARGET_COUNT MAX_CALLS.

(** * Vocabulary of the properties *)

(** ** Keys and batches *)

(** The key under which a row is de-duplicated. *)
Definition key (r : row) : str := normalize_name (Company r).

(** The keys of a list of rows, as a set. *)
Definition keys (rs : list row) : gset str := list_to_set (map key rs).


(** A row that carries only a name. *)
Definition named (name : str) : row :=
  {| Company := name; Segment := []; Country_Region := [];
     WhyRelevant := []; Website := []; Priority := [] |}.

(** The batch of the specification's example: the same name twice. *)
Definition acme_twice : list row :=
  [named (py "Acme GmbH"); named (py "Acme GmbH")].

(** A batch with two spellings of one key: the bare three-letter token, which
    the filter takes for a non-entity, and the same token after a blank. *)
Definition abc_two_spellings : list row :=
  [named (py "abc"); named (py " abc")].

(** A reply whose two lines give the names of [abc_two_spellings]: the second
    name is quoted, so its blank survives the stripping of the field. *)
Definition abc_two_spellings_text : str :=
  py "abc,Snacks,DE,Riegel,,A
" ++ [dquote] ++ py " abc" ++ [dquote] ++ py ",Snacks,DE,Riegel,,A".

(** ** Runs of the loop *)

(** The state that a run ended in. *)
Definition outcome_state (o : outcome) : state :=
  match o with
  | Returned st | Raised st | Unfinished st => st
  end.

Definition is_call (e : event) : bool :=
  match e with ECall _ _ _ => true | _ => false end.

(** The number of calls of the service recorded in a log. *)
Definition calls (l : list event) : nat := length (List.filter is_call l).

(** The names to avoid that a round starting in [st] hands to the service. *)
Definition avoid_list_of (st : state) : list str :=
  map Company (last_n AVOID_ROLLING_MAX (results st)).

(** What the loop keeps true between rounds: keys pairwise different, and
    the set holding exactly the keys of the rows collected. *)
Definition consistent (st : state) : Prop :=
  NoDup (map key (results st)) ∧ seen st = keys (results st).

(** Calls and counter go together: a round makes one call, and counts it
    unless the call raises. *)
Definition counted (cap : nat) (o : outcome) : Prop :=
  match o with
  | Returned st | Unfinished st =>
      calls (log st) = call_count st ∧ call_count st ≤ cap
  | Raised st =>
      calls (log st) = S (call_count st) ∧ call_count st < cap
  end.

(** The tier of a row is one of the three letters. *)
Definition tier_ok (r : row) : Prop :=
  Priority r = py "A" ∨ Priority r = py "B" ∨ Priority r = py "C".

(** ** Sample services *)

(** The service that never has any text. *)
Definition silent : collaborator := λ _ _ _, Text [].

(** A service that answers every call with the same three lines; two of them
    spell one company name differently. *)
Definition repeating : collaborator :=
  λ _ _ _, Text (py "Acme GmbH,Fleischalternativen,DE,Burger,,A
  acme   gmbh ,Fleischalternativen,DE,Burger,,B
Beta AG,Snacks,CH,Riegel,,C").

(** A service whose line carries another letter in the sixth field. *)
Definition odd_tier : collaborator :=
  λ _ _ _, Text (py "Acme GmbH,Fleischalternativen,DE,Burger,,Z").

(** A service that has five new well-formed rows at each call: the names of
    call 0 end in 0, those of call 1 in 1, and so on. *)
Definition five_rows (n : nat) : str :=
  let tag := [ascii_of_nat (48 + n mod 10)] in
  concat (map (λ name, py name ++ tag ++ py " AG,Snacks,DE,Riegel,,B
")
            ["Alpha"; "Bravo"; "Charlie"; "Delta"; "Echo"]%string).

Definition five_new_each_call : collaborator := λ n _ _, Text (five_rows n).

(** ** Patterns, read declaratively *)

(** [matches ic r p q]: the pattern [r] matches from the position [p] to the
    position [q]. *)
Inductive matches (ic : bool) : regex → pos → pos → Prop :=
| m_eps p : matches ic Eps p p
| m_lit c a prev s :
    char_eqb ic c a = true → matches ic (Lit c) (prev, a :: s) (Some a, s)
| m_notlit c a prev s :
    char_eqb ic c a = false → matches ic (NotLit c) (prev, a :: s) (Some a, s)
| m_space a prev s :
    PyStr.isspace a = true → matches ic Space (prev, a :: s) (Some a, s)
| m_bos s : matches ic Bos (None, s) (None, s)
| m_eos prev s : at_eos s = true → matches ic Eos (prev, s) (prev, s)
| m_wordb prev s :
    at_wordb prev s = true → matches ic WordB (prev, s) (prev, s)
| m_cat r1 r2 p q t :
    matches ic r1 p q → matches ic r2 q t → matches ic (Cat r1 r2) p t
| m_star_stop r p : matches ic (Star r) p p
| m_star_round r p q t :
    matches ic r p q → length q.2 < length p.2 → matches ic (Star r) q t →
    matches ic (Star r) p t
| m_ahead r p q : matches ic r p q → matches ic (Ahead r) p p.

(** The character before the position reached after reading [s]. *)
Fixpoint last_or (prev : option ascii) (s : str) : option ascii :=
  match s with
  | [] => prev
  | a :: s' => last_or (Some a) s'
  end.

(** ** Quotes and delimiters *)

(** The number of double quotes in a text. *)
Fixpoint quotes (s : str) : nat :=
  match s with
  | [] => 0
  | c :: s' => (if bool_decide (c = dquote) then 1 else 0) + quotes s'
  end.

(** A quoted stretch of [balanced_tail]: text without a double quote, a double
    quote, text without one, a double quote. *)
Definition quoted_stretch : regex :=
  Cat (Star (NotLit dquote))
      (Cat (Lit dquote) (Cat (Star (NotLit dquote)) (Lit dquote))).

(** [re.split] with a delimiter pattern, read off directly: the text is cut
    at every delimiter that an even number of double quotes follows. *)
Fixpoint cut (d : ascii) (s : str) (field : str) : list str :=
  match s with
  | [] => [field]
  | c :: s' =>
      if bool_decide (c = d) && Nat.even (quotes s')
      then field :: cut d s' []
      else cut d s' (field ++ [c])
  end.


(** The line [x,qa,bq,c,d,e,f] with [q] the double quote: the second field
    keeps its comma and loses its quotes. *)
Definition quoted_line : str :=
  py "x," ++ [dquote] ++ py "a,b" ++ [dquote] ++ py ",c,d,e,f".


(** ** Names that are not companies *)

(** [s] starts with [w]. *)
Definition starts_with (w s : str) : Prop := ∃ rest, s = w ++ rest.

(** [w] occurs in [s]. *)
Definition contains (w s : str) : Prop := ∃ pre post, s = pre ++ w ++ post.

(** [w] occurs in [s] and what follows it, if anything, is not a word
    character. *)
Definition contains_at_word_end (w s : str) : Prop :=
  ∃ pre post, s = pre ++ w ++ post ∧ is_word_opt (head post) = false.

(** A name that the filter is to reject, read on the lower-cased name: a
    placeholder (one that starts with siehe, keine, unbekannt or sample, or
    the whole name n/a), a piece of a web address (http anywhere, .com or .de
    at the end of a word), or one alphabetic token of at most three
    letters. *)
Definition non_company (name : str) : Prop :=
  starts_with (py "siehe") (PyStr.lower name)
  ∨ PyStr.lower name = py "n/a"
  ∨ starts_with (py "keine") (PyStr.lower name)
  ∨ starts_with (py "unbekannt") (PyStr.lower name)
  ∨ starts_with (py "sample") (PyStr.lower name)
  ∨ contains (py "http") (PyStr.lower name)
  ∨ contains_at_word_end (py ".com") (PyStr.lower name)
  ∨ contains_at_word_end (py ".de") (PyStr.lower name)
  ∨ (name ≠ [] ∧ Forall (λ c, PyStr.isalpha_char c = true) name
     ∧ length name ≤ 3).

(** ** Logs *)

(** The segment that the round numbered [n] is for. *)
Definition segment_of_round (n : nat) : segment :=
  nth (n mod length SEED_SEGMENTS) SEED_SEGMENTS (""%string, ""%string).

(** In the log of a state, a call that got an empty batch was for the
    segment of its round and is followed by the warning and the pause of two
    seconds; after these comes the call numbered one higher, for the segment
    of the next round and with the same names to avoid, unless the log ends
    there, the state then being the one that call is to be made from. *)
Definition empty_rounds_retried (ask : collaborator) (target : nat)
    (st : state) : Prop :=
  ∀ pre n seg avoid post,
    log st = pre ++ ECall n seg avoid :: post →
    generate_batch ask n seg avoid = Some [] →
    seg = segment_of_round n
    ∧ ∃ post',
        post = EWarn (n + 1) seg.1 :: ESleep 2000 :: post'
        ∧ ((∃ rest,
              post' = ECall (n + 1) (segment_of_round (n + 1)) avoid :: rest)
           ∨ (post' = [] ∧ call_count st = n + 1
              ∧ avoid_list_of st = avoid
              ∧ length (results st) < target)).

(** The row is one of the rows parsed from the reply to a call recorded in
    the log. *)
Definition from_reply (ask : collaborator) (l : list event) (r : row)
    : Prop :=
  ∃ n seg avoid text,
    ECall n seg avoid ∈ l ∧ ask n seg avoid = Text text
    ∧ r ∈ parse_csv_block text 6.

(** The calls recorded in a log, in order. *)
Definition call_events (l : list event) : list event := List.filter is_call l.

(** A log whose calls are numbered from 0 without a gap, each for the segment
    of its round and with at most [AVOID_ROLLING_MAX] names to avoid. *)
Definition calls_numbered (l : list event) : Prop :=
  ∀ i e, call_events l !! i = Some e →
         ∃ avoid, e = ECall i (segment_of_round i) avoid
                  ∧ length avoid ≤ AVOID_ROLLING_MAX.

(** The rows that the progress messages of a log report as added. *)
Fixpoint added_total (l : list event) : nat :=
  match l with
  | [] => 0
  | EOk added _ _ :: l' => added + added_total l'
  | _ :: l' => added_total l'
  end.

(** What the loop keeps true of its counters and its log between rounds. *)
Definition well_logged (st : state) : Prop :=
  seg_index st = call_count st
  ∧ calls (log st) = call_count st
  ∧ calls_numbered (log st)
  ∧ added_total (log st) = length (results st).

(** A service that raises at its third call and never has text before. *)
Definition raising_at_third : collaborator :=
  λ n _ _, if n =? 2 then Raise else Text [].

(** ** Normal forms of names *)

(** A text of white space only (the empty text included). *)
Definition blank (s : str) : Prop := Forall (λ c, PyStr.isspace c = true) s.

(** The replacement of every run of white space by one space, read off
    directly; [in_run] tells that the character before was white space. *)
Fixpoint collapse_go (in_run : bool) (s : str) : str :=
  match s with
  | [] => []
  | c :: s' =>
      if PyStr.isspace c
      then if in_run then collapse_go true s'
           else " "%char :: collapse_go true s'
      else c :: collapse_go false s'
  end.

(** The length of the white space that a text starts with. *)
Definition space_run (s : str) : nat :=
  length s - length (PyStr.lstrip_by PyStr.isspace s).

(** Every character is its own lower case, and every white space character
    is a space that a character other than white space follows. *)
Fixpoint single_spaced (s : str) : Prop :=
  match s with
  | [] => True
  | c :: s' =>
      PyStr.lower_char c = c
      ∧ (PyStr.isspace c = true →
         c = " "%char
         ∧ ∃ c' s'', s' = c' :: s'' ∧ PyStr.isspace c' = false)
      ∧ single_spaced s'
  end.

(** A key in normal form: single spaced, and not starting with white
    space. *)
Definition normal_key (s : str) : Prop :=
  single_spaced s ∧ ∀ c, head s = Some c → PyStr.isspace c = false.

(** ** Lines of plain fields *)

(** A field that can be written as it is between delimiters [d]: it holds
    neither the delimiter nor a double quote, and no white space at its
    ends. *)
Definition plain_field (d : ascii) (f : str) : Prop :=
  (d ∉ f) ∧ (dquote ∉ f) ∧ PyStr.strip f = f.

(** The fields joined by the delimiter. *)
Definition join_fields (d : ascii) (fs : list str) : str :=
  match fs with
  | [] => []
  | f :: rest => f ++ concat (map (cons d) rest)
  end.

(** The row made of the first six fields of a list. *)
Definition row_of_fields (fs : list str) : row :=
  {| Company := nth 0 fs []; Segment := nth 1 fs [];
     Country_Region := nth 2 fs []; WhyRelevant := nth 3 fs [];
     Website := nth 4 fs []; Priority := nth 5 fs [] |}.

(** * Properties *)

(** ** The filter and de-duplicator *)

Section Dedupe.

Implicit Types (rows clean : list row) (r : row) (acc : list row * gset str).

Lemma dedupe_step_cases acc r :
  (dedupe_step acc r = acc
   ∧ (key r = [] ∨ key r ∈ acc.2 ∨ looks_like_company (Company r) = false))
  ∨ (dedupe_step acc r = (acc.1 ++ [r], {[ key r ]} ∪ acc.2)
     ∧ key r ≠ [] ∧ (key r ∉ acc.2)
     ∧ looks_like_company (Company r) = true).
Proof.
  unfold dedupe_step, key.
  destruct (decide (normalize_name (Company r) = [])) as [He|He].
  { left. rewrite (bool_decide_eq_true_2 _ He). simpl. auto. }
  rewrite (bool_decide_eq_false_2 _ He). simpl.
  destruct (decide (normalize_name (Company r) ∈ acc.2)) as [Hin|Hin].
  { left. rewrite (bool_decide_eq_true_2 _ Hin). auto. }
  rewrite (bool_decide_eq_false_2 _ Hin).
  destruct (looks_like_company (Company r)) eqn:Hl; [right|left]; auto.
Qed.


Lemma dedupe_step_accept_changes acc r :
  key r ≠ [] → key r ∉ acc.2 → looks_like_company (Company r) = true →
  dedupe_step acc r ≠ acc.
Proof.
  intros H1 H2 H3.
  destruct (dedupe_step_cases acc r) as [[_ [H|[H|H]]]|[H _]];
    [done|done|congruence|].
  rewrite H. destruct acc as [c s]. simpl. intros [= Hc _].
  apply (f_equal length) in Hc. rewrite length_app in Hc. simpl in Hc. lia.
Qed.

(** What a whole pass does, from any accumulator: it appends rows whose keys
    are new, pairwise different and not empty, whose names pass the pattern
    filter, and it adds exactly their keys to the set. *)
Lemma dedupe_fold rows : ∀ acc,
  ∃ added,
    foldl dedupe_step acc rows = (acc.1 ++ added, keys added ∪ acc.2)
    ∧ NoDup (map key added)
    ∧ (added `sublist_of` rows)
    ∧ Forall (λ r, key r ≠ [] ∧ (key r ∉ acc.2)
                   ∧ looks_like_company (Company r) = true) added.
Proof.
  induction rows as [|r rows IH]; intros acc.
  - exists []. simpl. rewrite app_nil_r. unfold keys. simpl.
    rewrite (left_id_L ∅ (∪)). destruct acc. repeat split; constructor.
  - simpl. destruct (dedupe_step_cases acc r) as [[Hs _]|(Hs & Hk & Hn & Hl)].
    + rewrite Hs. destruct (IH acc) as (added & He & Hnd & Hsub & Hall).
      exists added. repeat split; try done. by apply sublist_cons.
    + rewrite Hs.
      destruct (IH (acc.1 ++ [r], {[ key r ]} ∪ acc.2))
        as (added & He & Hnd & Hsub & Hall).
      simpl in *. exists (r :: added). rewrite He. repeat split.
      * f_equal; [by rewrite <- app_assoc|]. unfold keys. simpl. set_solver.
      * simpl. constructor; [|done].
        intros Hin. apply list_elem_of_fmap in Hin as (r' & Hkr & Hr').
        rewrite Forall_forall in Hall. apply Hall in Hr' as (_ & Hr' & _).
        apply Hr'. rewrite <- Hkr. set_solver.
      * by apply sublist_skip.
      * constructor; [done|].
        eapply Forall_impl; [exact Hall|]. simpl.
        intros r' (? & Hr' & ?). repeat split; [done| |done]. set_solver.
Qed.

Lemma dedupe_and_filter_spec rows seen0 :
  ∃ clean,
    dedupe_and_filter rows seen0 = (clean, keys clean ∪ seen0)
    ∧ NoDup (map key clean)
    ∧ (clean `sublist_of` rows)
    ∧ Forall (λ r, key r ≠ [] ∧ (key r ∉ seen0)
                   ∧ looks_like_company (Company r) = true) clean.
Proof.
  destruct (dedupe_fold rows ([], seen0)) as (added & He & H).
  exists added. split; [exact He|exact H].
Qed.






End Dedupe.

Section DuplicateKeys.

Implicit Types (rows : list row) (r : row).





End DuplicateKeys.


(** Exactly one of the two identical candidates survives, and the set holds
    the one key. *)
Example acme_twice_filtered :
  dedupe_and_filter acme_twice ∅
  = ([named (py "Acme GmbH")], {[ py "acme gmbh" ]}).
Proof. vm_compute. reflexivity. Qed.


Example abc_two_spellings_filtered :
  dedupe_and_filter abc_two_spellings ∅
  = ([named (py " abc")], {[ py "abc" ]}).
Proof. vm_compute. reflexivity. Qed.

(** The two spellings reach the filter through the parser, and the later row
    is the one kept. *)
Example abc_two_spellings_parsed :
  map Company (parse_csv_block abc_two_spellings_text 6)
  = [py "abc"; py " abc"]
  ∧ map Company
      (dedupe_and_filter (parse_csv_block abc_two_spellings_text 6) ∅).1
    = [py " abc"].
Proof. split; vm_compute; reflexivity. Qed.

(** A candidate whose name differs from a key already seen only by case and
    white space is rejected. *)
Example seen_spelling_rejected :
  dedupe_and_filter [named (py "  Acme   GmbH ")] {[ py "acme gmbh" ]}
  = ([], {[ py "acme gmbh" ]}).
Proof. vm_compute. reflexivity. Qed.

(** ** The collection loop *)

Section Loop.

Variable ask : collaborator.
Variables target cap : nat.

Lemma keys_app rs1 rs2 : keys (rs1 ++ rs2) = keys rs1 ∪ keys rs2.
Proof. unfold keys. rewrite map_app. apply list_to_set_app_L. Qed.

Lemma elem_of_keys k rs : k ∈ keys rs ↔ k ∈ map key rs.
Proof. unfold keys. apply elem_of_list_to_set. Qed.

Lemma calls_app l1 l2 : calls (l1 ++ l2) = calls l1 + calls l2.
Proof. unfold calls. by rewrite List.filter_app, length_app. Qed.

(** A round on a state decomposes by the batch it gets. *)
Lemma iteration_cases st :
  let seg := current_segment st in
  let called := log st ++ [ECall (call_count st) seg (avoid_list_of st)] in
  match generate_batch ask (call_count st) seg (avoid_list_of st) with
  | None =>
      iteration ask st
      = Raised {| seen := seen st; results := results st;
                  call_count := call_count st;
                  seg_index := seg_index st + 1; log := called |}
  | Some batch =>
      ∃ clean extra,
        iteration ask st
        = Returned {| seen := keys clean ∪ seen st;
                      results := results st ++ clean;
                      call_count := call_count st + 1;
                      seg_index := seg_index st + 1;
                      log := called ++ extra |}
        ∧ calls extra = 0
        ∧ (batch = [] → clean = []
                        ∧ extra = [EWarn (call_count st + 1) seg.1;
                                   ESleep 2000])
        ∧ dedupe_and_filter batch (seen st) = (clean, keys clean ∪ seen st)
        ∧ NoDup (map key clean)
        ∧ Forall (λ r, key r ∉ seen st) clean
        ∧ (clean `sublist_of` batch)
  end.
Proof.
  intros seg called. unfold iteration. fold (avoid_list_of st). fold seg.
  fold called.
  destruct (generate_batch ask (call_count st) seg (avoid_list_of st))
    as [batch|]; [|done].
  destruct (dedupe_and_filter_spec batch (seen st))
    as (clean & Hd & Hnd & Hsub & Hall).
  assert (Hfresh : Forall (λ r, key r ∉ seen st) clean).
  { eapply Forall_impl; [exact Hall|]. by intros r (_ & ? & _). }
  assert (Hk0 : keys [] ∪ seen st = seen st) by apply (left_id_L ∅ (∪)).
  destruct batch as [|r batch].
  - exists [], [EWarn (call_count st + 1) seg.1; ESleep 2000].
    assert (clean = []) as ->.
    { unfold dedupe_and_filter in Hd. simpl in Hd. by injection Hd as <-. }
    rewrite app_nil_r, Hk0. repeat split; done.
  - rewrite Hd. destruct clean as [|c clean].
    + exists [], [EInfo (call_count st + 1)]. rewrite app_nil_r.
      repeat split; done.
    + eexists (c :: clean), [EOk _ _ seg.1; ESleep 800].
      repeat split; done.
Qed.

Lemma iteration_consistent st :
  consistent st → consistent (outcome_state (iteration ask st)).
Proof.
  intros [Hnd Hs]. pose proof (iteration_cases st) as H. simpl in H.
  destruct (generate_batch _ _ _ _) as [batch|].
  - destruct H as (clean & extra & -> & _ & _ & _ & Hc & Hfresh & _).
    split; simpl.
    + rewrite map_app. apply NoDup_app. repeat split; [done| |done].
      intros k Hk Hk'. apply list_elem_of_fmap in Hk' as (r & -> & Hr).
      rewrite Forall_forall in Hfresh. apply (Hfresh r Hr).
      rewrite Hs. by apply elem_of_keys.
    + rewrite keys_app, Hs. set_solver.
  - rewrite H. by split.
Qed.

Lemma loop_consistent rounds : ∀ st,
  consistent st → consistent (outcome_state (loop ask target cap rounds st)).
Proof.
  induction rounds as [|n IH]; intros st Hst; simpl.
  - by destruct (continues target cap st).
  - destruct (continues target cap st); [|done].
    pose proof (iteration_consistent st Hst) as Hit.
    destruct (iteration ask st) as [st'|st'|st']; simpl in *; auto.
Qed.

Lemma init_consistent : consistent init.
Proof. split; [constructor|done]. Qed.

Lemma iteration_counted st :
  calls (log st) = call_count st → call_count st < cap →
  counted cap (iteration ask st).
Proof.
  intros Hc Hlt. pose proof (iteration_cases st) as H. simpl in H.
  destruct (generate_batch _ _ _ _) as [batch|].
  - destruct H as (clean & extra & -> & Hx & _). simpl.
    rewrite !calls_app, Hx, Hc. unfold calls. simpl. lia.
  - rewrite H. simpl. rewrite calls_app, Hc. unfold calls. simpl. lia.
Qed.

(** With as many rounds as the cap leaves, the loop comes to its end. *)
Lemma loop_ends rounds : ∀ st,
  calls (log st) = call_count st → call_count st ≤ cap →
  cap - call_count st ≤ rounds →
  counted cap (loop ask target cap rounds st)
  ∧ ∀ st', loop ask target cap rounds st ≠ Unfinished st'.
Proof.
  induction rounds as [|n IH]; intros st Hc Hle Hn; simpl.
  - destruct (continues target cap st) eqn:Hcont; [|by split].
    unfold continues in Hcont. apply andb_true_iff in Hcont as [_ Hlt].
    apply Nat.ltb_lt in Hlt. lia.
  - destruct (continues target cap st) eqn:Hcont; [|by split].
    unfold continues in Hcont. apply andb_true_iff in Hcont as [_ Hlt].
    apply Nat.ltb_lt in Hlt.
    pose proof (iteration_counted st Hc Hlt) as Hit.
    pose proof (iteration_cases st) as H. simpl in H.
    destruct (generate_batch _ _ _ _) as [batch|].
    + destruct H as (clean & extra & Heq & _). rewrite Heq in *.
      simpl in Hit. apply IH; simpl; lia.
    + rewrite H in *. by split.
Qed.

(** The state of the loop while the service stays silent. *)
Lemma loop_silent rounds : ∀ st,
  (∀ n seg avoid, ask n seg avoid = Text []) →
  results st = [] → 0 < target → call_count st ≤ cap →
  cap - call_count st ≤ rounds →
  ∃ st', loop ask target cap rounds st = Returned st'
         ∧ results st' = [] ∧ call_count st' = cap
         ∧ calls (log st') = calls (log st) + (cap - call_count st).
Proof.
  induction rounds as [|n IH]; intros st Hask Hres Ht Hle Hn; simpl.
  - unfold continues. rewrite Hres. simpl.
    replace (call_count st <? cap) with false
      by (symmetry; apply Nat.ltb_ge; lia).
    destruct target; [lia|]. simpl. exists st. repeat split; [done|lia|lia].
  - unfold continues. rewrite Hres. simpl.
    destruct target as [|t] eqn:Etarget; [lia|]. simpl.
    destruct (call_count st <? cap) eqn:Hlt.
    + apply Nat.ltb_lt in Hlt.
      unfold iteration, generate_batch. rewrite Hask.
      match goal with |- ∃ st', loop _ _ _ _ ?s = _ ∧ _ =>
        destruct (IH s Hask) as (st' & He & Hr & Hcc & Hcalls);
          [done|lia|simpl; lia|simpl; lia|]
      end.
      exists st'. repeat split; [done|done|done|].
      rewrite Hcalls. simpl. rewrite !calls_app. unfold calls. simpl. lia.
    + apply Nat.ltb_ge in Hlt. exists st. repeat split; [done|lia|lia].
Qed.

End Loop.

Lemma trim_calls target st : calls (log (trim target st)) = calls (log st).
Proof. unfold trim. simpl. rewrite calls_app. unfold calls. simpl. lia. Qed.

Lemma collect_stops (ask : collaborator) (target cap : nat) :
  ∃ st, (collect ask target cap = Returned st
         ∨ collect ask target cap = Raised st)
        ∧ calls (log st) ≤ cap.
Proof.
  unfold collect.
  destruct (loop_ends ask target cap cap init) as [Hc Hu];
    [done|simpl; lia|simpl; lia|].
  destruct (loop ask target cap cap init) as [st|st|st]; simpl in Hc.
  - exists (trim target st). split; [by left|]. rewrite trim_calls. lia.
  - exists st. split; [by right|]. lia.
  - by destruct (Hu st).
Qed.

Lemma collect_silent (ask : collaborator) (target cap : nat) :
  0 < target → (∀ n seg avoid, ask n seg avoid = Text []) →
  ∃ st, collect ask target cap = Returned st ∧ results st = []
        ∧ call_count st = cap ∧ calls (log st) = cap.
Proof.
  intros Ht Hask. unfold collect.
  destruct (loop_silent ask target cap cap init Hask)
    as (st & -> & Hr & Hcc & Hcalls); [done|done|simpl; lia|simpl; lia|].
  exists (trim target st). split; [done|].
  rewrite trim_calls, Hcalls. unfold trim at 1 2. simpl. rewrite Hr.
  split; [by rewrite take_nil|]. split; [done|].
  unfold calls. simpl. lia.
Qed.

Lemma take_keys_unique n (rs : list row) :
  NoDup (map key rs) → NoDup (map key (take n rs)).
Proof.
  intros H. eapply sublist_NoDup; [exact H|].
  change (map key) with (fmap (M:=list) key). rewrite fmap_take.
  apply sublist_take.
Qed.

(** C1: a collection comes to an end, and in the rows of one that returned
    no two names normalise to the same key, whatever the service answered. *)
Theorem collected_keys_unique (ask : collaborator) (target cap : nat) :
  (∃ st, collect ask target cap = Returned st
         ∨ collect ask target cap = Raised st)
  ∧ ∀ st, collect ask target cap = Returned st →
          NoDup (map key (results st)).
Proof.
  split.
  { destruct (collect_stops ask target cap) as (st & H & _). by exists st. }
  unfold collect. intros st H.
  pose proof (loop_consistent ask target cap cap init init_consistent)
    as [Hnd _].
  destruct (loop ask target cap cap init) as [st'|st'|st']; try discriminate.
  injection H as <-. simpl in *. by apply take_keys_unique.
Qed.

Lemma collected_keys_unique_witness :
  main repeating = Returned (outcome_state (main repeating))
  ∧ length (results (outcome_state (main repeating))) = 2
  ∧ NoDup (map key (results (outcome_state (main repeating)))).
Proof.
  split; [vm_compute; reflexivity|]. split; [vm_compute; reflexivity|].
  apply (proj2 (collected_keys_unique repeating TARGET_COUNT MAX_CALLS)).
  vm_compute. reflexivity.
Defined.

(** C2: a collection comes to an end, and after the final trim it holds at
    most [target] rows, whatever the batches were. *)
Theorem trimmed_within_target (ask : collaborator) (target cap : nat) :
  (∃ st, collect ask target cap = Returned st
         ∨ collect ask target cap = Raised st)
  ∧ ∀ st, collect ask target cap = Returned st →
          length (results st) ≤ target.
Proof.
  split.
  { destruct (collect_stops ask target cap) as (st & H & _). by exists st. }
  unfold collect. intros st H.
  destruct (loop ask target cap cap init) as [st'|st'|st']; try discriminate.
  injection H as <-. simpl. rewrite length_take. lia.
Qed.

(** With a target of one row, the first batch of [repeating] overshoots: the
    loop leaves two rows and the trim keeps one. *)
Lemma trimmed_within_target_witness :
  length (results (outcome_state (loop repeating 1 5 5 init))) = 2
  ∧ collect repeating 1 5 = Returned (outcome_state (collect repeating 1 5))
  ∧ length (results (outcome_state (collect repeating 1 5))) ≤ 1.
Proof.
  split; [vm_compute; reflexivity|]. split; [vm_compute; reflexivity|].
  apply (proj2 (trimmed_within_target repeating 1 5)). vm_compute. reflexivity.
Defined.

(** C3: [main] always comes to an end, by returning or by an exception of
    the service, having made at most [MAX_CALLS] calls; and when the service
    has no text at any call, [main] returns with the counter at [MAX_CALLS],
    that many calls made, and no row. *)
Theorem main_stops_within_cap (ask : collaborator) :
  (∃ st, (main ask = Returned st ∨ main ask = Raised st)
         ∧ calls (log st) ≤ MAX_CALLS)
  ∧ ((∀ n seg avoid, ask n seg avoid = Text []) →
     ∃ st, main ask = Returned st ∧ results st = []
           ∧ call_count st = MAX_CALLS ∧ calls (log st) = MAX_CALLS).
Proof.
  unfold main. split; [apply collect_stops|].
  apply collect_silent. unfold TARGET_COUNT. lia.
Qed.

Lemma main_stops_within_cap_witness :
  ∃ st, main silent = Returned st ∧ results st = []
        ∧ call_count st = MAX_CALLS ∧ calls (log st) = MAX_CALLS.
Proof.
  apply (proj2 (main_stops_within_cap silent)). reflexivity.
Defined.

(** With a target of ten rows and five new rows at each call, two calls
    fill the collection, for the first two segments of the list. *)
Example two_calls_fill_ten :
  let st := outcome_state (collect five_new_each_call 10 MAX_CALLS) in
  length (results st) = 10 ∧ call_count st = 2
  ∧ List.filter is_call (log st)
    = [ECall 0 (nth 0 SEED_SEGMENTS (""%string, ""%string)) [];
       ECall 1 (nth 1 SEED_SEGMENTS (""%string, ""%string))
         (map py ["Alpha0 AG"; "Bravo0 AG"; "Charlie0 AG"; "Delta0 AG";
                  "Echo0 AG"]%string)].
Proof. vm_compute. repeat split; reflexivity. Qed.

(** The log of a silent run: forty rounds of call, warning and pause, then
    the closing message. *)
Example main_silent_log_length :
  length (log (outcome_state (main silent))) = 3 * MAX_CALLS + 1.
Proof. vm_compute. reflexivity. Qed.

(** The segment after the current one, cyclically, is a different one. *)
Lemma next_segment_differs (i : nat) :
  nth ((i + 1) mod length SEED_SEGMENTS) SEED_SEGMENTS (""%string, ""%string)
  ≠ nth (i mod length SEED_SEGMENTS) SEED_SEGMENTS (""%string, ""%string).
Proof.
  change (length SEED_SEGMENTS) with 10.
  rewrite <- (Nat.Div0.add_mod_idemp_l i 1 10).
  pose proof (Nat.mod_upper_bound i 10 ltac:(lia)) as Hlt.
  destruct (i mod 10) as [|[|[|[|[|[|[|[|[|[|m]]]]]]]]]];
    try (vm_compute; discriminate). lia.
Qed.

(** *** Rounds with an empty batch *)

Section EmptyRounds.

Variable ask : collaborator.
Variables target cap : nat.

Lemma current_segment_round st :
  seg_index st = call_count st →
  current_segment st = segment_of_round (call_count st).
Proof. unfold current_segment, segment_of_round. by intros ->. Qed.

Lemma init_retried : empty_rounds_retried ask target init.
Proof. intros pre n seg avoid post Hlog. by destruct pre. Qed.

(** A log extended by the call of a round and by what the round logs after
    it. *)
Lemma retried_snoc_call st extra st' :
  seg_index st = call_count st →
  empty_rounds_retried ask target st →
  calls extra = 0 →
  log st'
  = log st
    ++ ECall (call_count st) (current_segment st) (avoid_list_of st) :: extra →
  (generate_batch ask (call_count st) (current_segment st) (avoid_list_of st)
   = Some [] →
   extra = [EWarn (call_count st + 1) (current_segment st).1; ESleep 2000]
   ∧ call_count st' = call_count st + 1
   ∧ avoid_list_of st' = avoid_list_of st
   ∧ length (results st') < target) →
  empty_rounds_retried ask target st'.
Proof.
  intros Hseg Hinv Hx Hlog Hnew pre n seg avoid post Hdec Hgen.
  rewrite Hlog in Hdec.
  assert (Hlast :
    ECall n seg avoid :: post
    = ECall (call_count st) (current_segment st) (avoid_list_of st) :: extra →
    seg = segment_of_round n
    ∧ ∃ post',
        post = EWarn (n + 1) seg.1 :: ESleep 2000 :: post'
        ∧ ((∃ rest,
              post' = ECall (n + 1) (segment_of_round (n + 1)) avoid :: rest)
           ∨ (post' = [] ∧ call_count st' = n + 1
              ∧ avoid_list_of st' = avoid
              ∧ length (results st') < target))).
  { intros Heq. injection Heq as Hn Hs Ha Hp. subst n seg avoid post.
    destruct (Hnew Hgen) as (-> & Hc & Ha & Hr).
    split; [by apply current_segment_round|].
    exists []. split; [done|]. by right. }
  apply app_eq_inv in Hdec as [(k & Hl & Hk)|(k & Hpre & Hk)].
  - destruct k as [|e k]; [by apply Hlast|].
    cbn [app] in Hk. injection Hk as <- ->.
    destruct (Hinv pre n seg avoid k Hl Hgen) as (Hs & post' & -> & Hcase).
    split; [done|].
    destruct Hcase as [(rest & ->)|(-> & Hc & Ha & _)].
    + eexists. split; [reflexivity|]. left. eexists. reflexivity.
    + eexists. split; [reflexivity|]. left. exists extra.
      by rewrite (current_segment_round st Hseg), Hc, Ha.
  - destruct k as [|e k]; [by apply Hlast|].
    cbn [app] in Hk. injection Hk as _ Hk.
    rewrite Hk, calls_app in Hx. unfold calls in Hx. simpl in Hx. lia.
Qed.

Lemma iteration_retried st :
  seg_index st = call_count st → length (results st) < target →
  empty_rounds_retried ask target st →
  empty_rounds_retried ask target (outcome_state (iteration ask st))
  ∧ ∀ st', iteration ask st = Returned st' → seg_index st' = call_count st'.
Proof.
  intros Hseg Hlt Hinv. pose proof (iteration_cases ask st) as H. simpl in H.
  destruct (generate_batch ask (call_count st) (current_segment st)
              (avoid_list_of st)) as [batch|] eqn:Hb.
  - destruct H as (clean & extra & -> & Hx & Hempty & _).
    cbn [outcome_state]. split; [|intros st' [= <-]; cbn; lia].
    apply (retried_snoc_call st extra); [done|done|done| |].
    + cbn [log]. by rewrite <- app_assoc.
    + intros Hg. rewrite Hb in Hg. injection Hg as ->.
      destruct (Hempty eq_refl) as [-> ->].
      cbn [call_count results]. unfold avoid_list_of. cbn [results].
      rewrite app_nil_r. done.
  - rewrite H. cbn [outcome_state]. split; [|discriminate].
    apply (retried_snoc_call st []); [done|done|done|done|].
    intros Hg. rewrite Hb in Hg. discriminate Hg.
Qed.

Lemma loop_retried rounds : ∀ st,
  seg_index st = call_count st →
  empty_rounds_retried ask target st →
  empty_rounds_retried ask target
    (outcome_state (loop ask target cap rounds st)).
Proof.
  induction rounds as [|m IH]; intros st Hseg Hinv; cbn [loop].
  - by destruct (continues target cap st).
  - destruct (continues target cap st) eqn:Hcont; [|done].
    unfold continues in Hcont. apply andb_true_iff in Hcont as [Hlt _].
    apply Nat.ltb_lt in Hlt.
    destruct (iteration_retried st Hseg Hlt Hinv) as [Hit Hseg'].
    destruct (iteration ask st) as [st'|st'|st']; [|done|done].
    apply IH; [by apply Hseg'|done].
Qed.

(** The loop returns only from a head at which its condition fails. *)
Lemma loop_returned_stops rounds : ∀ st st',
  loop ask target cap rounds st = Returned st' →
  continues target cap st' = false.
Proof.
  induction rounds as [|m IH]; intros st st'; cbn [loop].
  - destruct (continues target cap st) eqn:Hcont; [done|]. by intros [= <-].
  - destruct (continues target cap st) eqn:Hcont; [|by intros [= <-]].
    destruct (iteration ask st) as [st1|st1|st1]; [apply IH|done|done].
Qed.

(** The log of a run that raised ends with the call that raised. *)
Lemma loop_raised_log rounds : ∀ st st',
  loop ask target cap rounds st = Raised st' →
  ∃ l n seg avoid, log st' = l ++ [ECall n seg avoid].
Proof.
  induction rounds as [|m IH]; intros st st'; cbn [loop].
  - by destruct (continues target cap st).
  - destruct (continues target cap st); [|done].
    pose proof (iteration_cases ask st) as H. simpl in H.
    destruct (generate_batch _ _ _ _) as [batch|].
    + destruct H as (clean & extra & -> & _). apply IH.
    + rewrite H. intros [= <-]. cbn [log]. eauto.
Qed.

End EmptyRounds.

(** C8: in the log of a collection, a call numbered [n] whose batch was
    empty was made for the segment [n mod 10] of the list, and is followed
    by the warning, which carries the counter already incremented to [n + 1],
    and by the pause of two seconds.  After the pause the loop either makes
    the call numbered [n + 1], for the next segment of the list (cyclically),
    which is not the one just used, and with the same names to avoid; or
    [n + 1] is the cap, and the collection returns with its counter at
    [n + 1]. *)
Theorem empty_batch_moves_to_next_segment (ask : collaborator)
    (target cap : nat) pre n seg avoid post :
  log (outcome_state (collect ask target cap))
  = pre ++ ECall n seg avoid :: post →
  generate_batch ask n seg avoid = Some [] →
  seg = nth (n mod length SEED_SEGMENTS) SEED_SEGMENTS (""%string, ""%string)
  ∧ segment_of_round (n + 1) ≠ seg
  ∧ ∃ post',
      post = EWarn (n + 1) seg.1 :: ESleep 2000 :: post'
      ∧ ((∃ rest,
            post' = ECall (n + 1)
                      (nth ((n + 1) mod length SEED_SEGMENTS) SEED_SEGMENTS
                         (""%string, ""%string)) avoid :: rest)
         ∨ (n + 1 = cap
            ∧ ∃ st, collect ask target cap = Returned st
                    ∧ call_count st = n + 1
                    ∧ post' = [ESaved (length (results st))])).
Proof.
  intros Hdec Hgen. unfold collect in *.
  destruct (loop_ends ask target cap cap init) as [Hcount Hfin];
    [done|cbn; lia|cbn; lia|].
  pose proof (loop_retried ask target cap cap init eq_refl
                (init_retried ask target)) as Hinv.
  fold (segment_of_round n). fold (segment_of_round (n + 1)).
  destruct (loop ask target cap cap init) as [st|st|st] eqn:Hloop;
    cbn [outcome_state] in *.
  - assert (Hsplit :
      ∃ post0,
        post = post0 ++ [ESaved (length (results (trim target st)))]
        ∧ log st = pre ++ ECall n seg avoid :: post0).
    { unfold trim in *. cbn [log results] in *.
      apply app_eq_inv in Hdec as [(k & Hl & Hk)|(k & Hpre & Hk)].
      - destruct k as [|e k]; [discriminate Hk|].
        cbn [app] in Hk. injection Hk as <- ->. by exists k.
      - destruct k as [|e k]; [discriminate Hk|].
        cbn [app] in Hk. injection Hk as _ Hk. by destruct k. }
    destruct Hsplit as (post0 & -> & Hlog).
    destruct (Hinv pre n seg avoid post0 Hlog Hgen)
      as (-> & post' & -> & Hcase).
    split; [done|]. split; [apply next_segment_differs|].
    destruct Hcase as [(rest & ->)|(-> & Hc & _ & Hlt)].
    + eexists. split; [reflexivity|]. left. eexists. reflexivity.
    + eexists. split; [reflexivity|]. right.
      apply loop_returned_stops in Hloop. unfold continues in Hloop.
      apply Nat.ltb_lt in Hlt. rewrite Hlt in Hloop. cbn [andb] in Hloop.
      apply Nat.ltb_ge in Hloop. destruct Hcount as [_ Hle].
      split; [lia|]. exists (trim target st). by repeat split.
  - destruct (Hinv pre n seg avoid post Hdec Hgen)
      as (-> & post' & -> & Hcase).
    split; [done|]. split; [apply next_segment_differs|].
    destruct Hcase as [(rest & ->)|(-> & _)].
    + eexists. split; [reflexivity|]. left. eexists. reflexivity.
    + apply loop_raised_log in Hloop as (l & n' & seg' & avoid' & Hl).
      rewrite Hl in Hdec. apply (f_equal last) in Hdec.
      rewrite last_snoc in Hdec.
      change (pre ++ ECall n (segment_of_round n) avoid
                :: [EWarn (n + 1) (segment_of_round n).1; ESleep 2000])
        with (pre ++ [ECall n (segment_of_round n) avoid;
                      EWarn (n + 1) (segment_of_round n).1] ++ [ESleep 2000])
        in Hdec.
      rewrite !app_assoc, last_snoc in Hdec. discriminate Hdec.
  - by destruct (Hfin st).
Qed.

(** A silent service, a target of one row and a cap of two calls: the first
    call is followed by the warning, the pause and the call for the second
    segment. *)
Lemma empty_batch_moves_to_next_segment_witness :
  segment_of_round 0
  = nth (0 mod length SEED_SEGMENTS) SEED_SEGMENTS (""%string, ""%string)
  ∧ segment_of_round (0 + 1) ≠ segment_of_round 0
  ∧ ∃ post',
      [EWarn 1 (segment_of_round 0).1; ESleep 2000;
       ECall 1 (segment_of_round 1) [];
       EWarn 2 (segment_of_round 1).1; ESleep 2000; ESaved 0]
      = EWarn (0 + 1) (segment_of_round 0).1 :: ESleep 2000 :: post'
      ∧ ((∃ rest,
            post' = ECall (0 + 1)
                      (nth ((0 + 1) mod length SEED_SEGMENTS) SEED_SEGMENTS
                         (""%string, ""%string)) [] :: rest)
         ∨ (0 + 1 = 2
            ∧ ∃ st, collect silent 1 2 = Returned st
                    ∧ call_count st = 0 + 1
                    ∧ post' = [ESaved (length (results st))])).
Proof.
  apply (empty_batch_moves_to_next_segment silent 1 2 [] 0
           (segment_of_round 0) []).
  - vm_compute. reflexivity.
  - reflexivity.
Defined.

(** *** The set of keys and the rows collected *)

(** A round that comes to the point after the filter ends as [after_extend]
    says. *)
Lemma iteration_after_filter (ask : collaborator) st mid batch_clean :
  after_filter ask st = Some (mid, batch_clean) →
  iteration ask st
  = Returned (after_extend (current_segment st) mid batch_clean).
Proof.
  unfold after_filter, iteration.
  destruct (generate_batch ask (call_count st) (current_segment st)
              (map Company (last_n AVOID_ROLLING_MAX (results st))))
    as [[|r batch]|]; [done| |done].
  destruct (dedupe_and_filter (r :: batch) (seen st)) as [clean seen'].
  intros [= <- <-]. by destruct clean.
Qed.

(** At that point the set holds the keys of the rows collected and of the
    rows just accepted, which are not in the list yet. *)
Lemma after_filter_seen (ask : collaborator) st mid batch_clean :
  consistent st → after_filter ask st = Some (mid, batch_clean) →
  results mid = results st
  ∧ seen mid = keys batch_clean ∪ keys (results mid)
  ∧ (batch_clean ≠ [] → seen mid ≠ keys (results mid)).
Proof.
  intros [_ Hs]. unfold after_filter.
  destruct (generate_batch ask (call_count st) (current_segment st)
              (map Company (last_n AVOID_ROLLING_MAX (results st))))
    as [[|r batch]|]; [done| |done].
  destruct (dedupe_and_filter_spec (r :: batch) (seen st))
    as (clean & -> & _ & _ & Hall).
  intros [= <- <-]. cbn [results seen]. rewrite <- Hs.
  split; [done|]. split; [done|].
  intros Hne Heq. destruct clean as [|c clean]; [done|].
  apply Forall_cons in Hall as [(_ & Hc & _) _]. apply Hc.
  rewrite <- Heq. apply elem_of_union. left.
  apply elem_of_keys. cbn [map]. apply elem_of_cons. by left.
Qed.

(** C10, as stated, fails inside a round: in the first round of a run with
    [repeating], once the filter has returned and before the rows are added
    to the list, the set holds two keys and the list no row. *)
Lemma seen_ahead_of_results_in_round :
  continues TARGET_COUNT MAX_CALLS init = true
  ∧ ∃ mid batch_clean,
      after_filter repeating init = Some (mid, batch_clean)
      ∧ iteration repeating init
        = Returned (after_extend (current_segment init) mid batch_clean)
      ∧ results mid = []
      ∧ seen mid = {[ py "acme gmbh"; py "beta ag" ]}
      ∧ seen mid ≠ keys (results mid).
Proof.
  split; [reflexivity|].
  destruct (after_filter repeating init) as [[mid batch_clean]|] eqn:Hmid;
    [|by vm_compute in Hmid].
  exists mid, batch_clean. split; [done|].
  split; [by apply iteration_after_filter|].
  destruct (after_filter_seen repeating init mid batch_clean init_consistent
              Hmid) as (Hr & Hs & Hne).
  assert (Hclean : map Company batch_clean
                   = [py "Acme GmbH"; py "Beta AG"]).
  { vm_compute in Hmid. injection Hmid as _ <-. reflexivity. }
  split; [exact Hr|]. split.
  - vm_compute in Hmid. injection Hmid as <- _. reflexivity.
  - apply Hne. intros ->. discriminate Hclean.
Qed.

(** C10, as the code has it: at every head of the loop, that is after any
    number of rounds and before the final trim, the set [seen] holds exactly
    the keys of the rows in [results].  Within a round the filter adds to the
    set the keys of the rows it accepts and no other: a candidate that the
    pattern filter rejects leaves the set as it was. *)
Theorem seen_is_keys_of_results (ask : collaborator)
    (target cap rounds : nat) :
  seen (outcome_state (loop ask target cap rounds init))
  = keys (results (outcome_state (loop ask target cap rounds init)))
  ∧ (∀ rows (seen0 : gset str),
        (dedupe_and_filter rows seen0).2
        = keys (dedupe_and_filter rows seen0).1 ∪ seen0)
  ∧ (∀ acc r,
        looks_like_company (Company r) = false → dedupe_step acc r = acc).
Proof.
  split; [apply (loop_consistent ask target cap rounds init init_consistent)|].
  split.
  - intros rows seen0.
    by destruct (dedupe_and_filter_spec rows seen0) as (clean & -> & _).
  - intros acc r Hl.
    destruct (dedupe_step_cases acc r) as [[H _]|(_ & _ & _ & H)];
      [done|congruence].
Qed.

(** After the first round with [repeating] the set holds the two keys of the
    two rows collected; a placeholder name changes nothing. *)
Lemma seen_is_keys_of_results_witness :
  seen (outcome_state (loop repeating TARGET_COUNT MAX_CALLS 1 init))
  = {[ py "acme gmbh"; py "beta ag" ]}
  ∧ dedupe_step ([], ∅) (named (py "Keine Angabe")) = ([], ∅).
Proof.
  destruct (seen_is_keys_of_results repeating TARGET_COUNT MAX_CALLS 1)
    as (H1 & _ & H3).
  split.
  - rewrite H1. vm_compute. reflexivity.
  - apply H3. vm_compute. reflexivity.
Defined.

(** ** The parser *)

Section Parser.

Implicit Types (line : str) (lines : list str) (r : row).

(** The loop over the lines collects what each line contributes, in order. *)
Lemma parse_lines_omap n lines :
  parse_lines n lines = omap (parse_line n) lines.
Proof.
  unfold parse_lines.
  enough (H : ∀ rows,
             foldl (λ rows line,
                      match parse_line n line with
                      | Some r => rows ++ [r]
                      | None => rows
                      end) rows lines
             = rows ++ omap (parse_line n) lines) by apply (H []).
  induction lines as [|line lines IH]; intros rows; simpl.
  - by rewrite app_nil_r.
  - rewrite IH. destruct (parse_line n line); [|done].
    by rewrite <- app_assoc.
Qed.

Lemma parse_lines_app n lines1 lines2 :
  parse_lines n (lines1 ++ lines2)
  = parse_lines n lines1 ++ parse_lines n lines2.
Proof. rewrite !parse_lines_omap. apply omap_app. Qed.

(** What a line that gives a row looks like. *)
Lemma parse_line_Some n line r :
  parse_line n line = Some r →
  PyStr.strip line ≠ []
  ∧ ∃ d, (d = ","%char ∨ (d = ";"%char ∧ length (fields "," line) < n))
         ∧ n ≤ length (fields d line)
         ∧ r = {| Company := column (fields d line) 0;
                  Segment := column (fields d line) 1;
                  Country_Region := column (fields d line) 2;
                  WhyRelevant := column (fields d line) 3;
                  Website := column (fields d line) 4;
                  Priority := column (fields d line) 5 |}.
Proof.
  unfold parse_line. case_bool_decide as Hblank; [done|].
  intros H. split; [done|].
  destruct (length (fields "," line) <? n) eqn:Hlt.
  - apply Nat.ltb_lt in Hlt.
    destruct (n <=? length (fields ";" line)) eqn:Hle; [|done].
    apply Nat.leb_le in Hle. injection H as <-. exists ";"%char. auto.
  - destruct (n <=? length (fields "," line)) eqn:Hle; [|done].
    apply Nat.leb_le in Hle. injection H as <-. exists ","%char. auto.
Qed.

(** Every row of a parsed block is the row of one of its lines. *)
Lemma parse_csv_block_rows text n r :
  r ∈ parse_csv_block text n →
  ∃ line, line ∈ PyStr.splitlines text ∧ parse_line n line = Some r.
Proof.
  unfold parse_csv_block. rewrite parse_lines_omap.
  intros H. apply list_elem_of_omap in H as (line & ? & ?). eauto.
Qed.

End Parser.

(** C5: a line with fewer than six fields under the comma rule and under the
    semicolon rule gives no row, and neither does a blank line; the rows of
    the lines around it are what they are without it. *)
Theorem short_or_blank_line_discarded (before after : list str) (line : str) :
  (length (fields "," line) < 6 ∧ length (fields ";" line) < 6)
  ∨ PyStr.strip line = [] →
  parse_line 6 line = None
  ∧ parse_lines 6 (before ++ line :: after)
    = parse_lines 6 before ++ parse_lines 6 after.
Proof.
  intros H.
  assert (Hnone : parse_line 6 line = None).
  { unfold parse_line. destruct H as [[Hc Hs]|Hb].
    - case_bool_decide; [done|].
      apply Nat.ltb_lt in Hc. rewrite Hc.
      replace (6 <=? length (fields ";" line)) with false; [done|].
      symmetry. apply Nat.leb_gt. lia.
    - by rewrite (bool_decide_eq_true_2 _ Hb). }
  split; [done|].
  rewrite parse_lines_app. f_equal.
  change (line :: after) with ([line] ++ after).
  rewrite parse_lines_app. unfold parse_lines at 1. simpl. by rewrite Hnone.
Qed.

Lemma short_or_blank_line_discarded_witness :
  (parse_line 6 (py "Acme GmbH,Snacks,DE;only;four;fields") = None
   ∧ parse_lines 6 [py "a,b,c,d,e,f";
                    py "Acme GmbH,Snacks,DE;only;four;fields";
                    py "g;h;i;j;k;l"]
     = parse_lines 6 [py "a,b,c,d,e,f"] ++ parse_lines 6 [py "g;h;i;j;k;l"])
  ∧ (parse_line 6 (py "   ") = None
     ∧ parse_lines 6 [py "   "] = parse_lines 6 [] ++ parse_lines 6 []).
Proof.
  split.
  - apply (short_or_blank_line_discarded [py "a,b,c,d,e,f"]
             [py "g;h;i;j;k;l"] (py "Acme GmbH,Snacks,DE;only;four;fields")).
    left. vm_compute. lia.
  - apply (short_or_blank_line_discarded [] [] (py "   ")).
    right. vm_compute. reflexivity.
Defined.

(** A block with a short line, a blank line and two good ones. *)
Example parse_csv_block_sample :
  map (λ r, (Company r, Priority r))
    (parse_csv_block (py "Acme GmbH, Snacks ,DE,why,,A
short,line

a;b;c;d;e;f") 6)
  = [(py "Acme GmbH", py "A"); (py "a", py "f")].
Proof. vm_compute. reflexivity. Qed.

(** ** Priority tiers *)

(** C9, as stated, fails: the row of [odd_tier] is collected with the tier
    it came with. *)
Lemma odd_tier_collected :
  main odd_tier
  = Returned (outcome_state (main odd_tier))
  ∧ map Priority (results (outcome_state (main odd_tier))) = [py "Z"]
  ∧ ¬ Forall tier_ok (results (outcome_state (main odd_tier))).
Proof.
  split; [vm_compute; reflexivity|]. split; [vm_compute; reflexivity|].
  intros H.
  assert (Hr : results (outcome_state (main odd_tier))
               = [ {| Company := py "Acme GmbH";
                      Segment := py "Fleischalternativen";
                      Country_Region := py "DE"; WhyRelevant := py "Burger";
                      Website := []; Priority := py "Z" |} ])
    by (vm_compute; reflexivity).
  rewrite Hr in H. apply Forall_cons in H as [[H|[H|H]] _]; discriminate H.
Qed.

Section Provenance.

Variable ask : collaborator.
Variables target cap : nat.

Lemma from_reply_app l1 l2 r :
  from_reply ask l1 r → from_reply ask (l1 ++ l2) r.
Proof.
  intros (n & seg & avoid & text & Hin & H). exists n, seg, avoid, text.
  split; [|done]. apply elem_of_app. by left.
Qed.

(** The rows of a batch are parsed from the reply to the call. *)
Lemma generate_batch_rows n seg avoid batch r :
  generate_batch ask n seg avoid = Some batch → r ∈ batch →
  ∃ text, ask n seg avoid = Text text ∧ r ∈ parse_csv_block text 6.
Proof.
  unfold generate_batch. destruct (ask n seg avoid) as [text|]; [|done].
  intros Hb Hr. exists text. split; [done|].
  destruct text; injection Hb as <-; [by apply elem_of_nil in Hr|done].
Qed.

(** Every collected row comes from the reply to a call that the loop made. *)
Lemma loop_results_from_reply rounds : ∀ st,
  Forall (from_reply ask (log st)) (results st) →
  Forall (from_reply ask (log (outcome_state (loop ask target cap rounds st))))
    (results (outcome_state (loop ask target cap rounds st))).
Proof.
  induction rounds as [|m IH]; intros st Hst; cbn [loop].
  - by destruct (continues target cap st).
  - destruct (continues target cap st); [|done].
    pose proof (iteration_cases ask st) as H. simpl in H.
    destruct (generate_batch ask (call_count st) (current_segment st)
                (avoid_list_of st)) as [batch|] eqn:Hb.
    + destruct H as (clean & extra & -> & _ & _ & _ & _ & _ & Hsub).
      apply IH. cbn [log results]. apply Forall_app. split.
      * eapply Forall_impl; [exact Hst|]. intros r Hr.
        rewrite <- app_assoc. by apply from_reply_app.
      * apply Forall_forall. intros r Hr.
        destruct (generate_batch_rows _ _ _ batch r Hb) as (text & Hask & Hin);
          [by eapply elem_of_sublist|].
        exists (call_count st), (current_segment st), (avoid_list_of st), text.
        split; [|done]. rewrite <- app_assoc.
        apply elem_of_app. right. apply elem_of_cons. by left.
    + rewrite H. cbn [outcome_state log results].
      eapply Forall_impl; [exact Hst|]. intros r Hr. by apply from_reply_app.
Qed.

End Provenance.

(** C9, as the code has it: a collected row is the row of a line of the
    reply to one of the calls of the run, and its tier is the sixth piece of
    that line, cut at the commas if that gives six pieces or more and at the
    semicolons otherwise, with white space and then double quotes stripped
    from its ends. *)
Theorem priority_is_sixth_field (ask : collaborator) (target cap : nat) st :
  collect ask target cap = Returned st →
  Forall (λ r, ∃ n seg avoid text line piece,
               ECall n seg avoid ∈ log st
               ∧ ask n seg avoid = Text text
               ∧ line ∈ PyStr.splitlines text
               ∧ parse_line 6 line = Some r
               ∧ Re.split
                   (delim_re
                      (if 6 <=? length (Re.split (delim_re ","%char) line)
                       then ","%char else ";"%char)) line !! 5
                 = Some piece
               ∧ Priority r = PyStr.strip_quotes (PyStr.strip piece))
         (results st).
Proof.
  unfold collect. intros H.
  pose proof (loop_results_from_reply ask target cap cap init
                (Forall_nil_2 _)) as Hloop.
  destruct (loop ask target cap cap init) as [st'|st'|st']; try discriminate.
  injection H as <-. cbn [outcome_state] in Hloop. unfold trim.
  cbn [results log]. apply Forall_take.
  eapply Forall_impl; [exact Hloop|]. intros r Hr.
  apply (from_reply_app _ _ [ESaved (length (take target (results st')))])
    in Hr.
  destruct Hr as (n & seg & avoid & text & Hin & Hask & Hr).
  apply parse_csv_block_rows in Hr as (line & Hline & Hrow).
  destruct (parse_line_Some 6 line r Hrow) as (_ & d & Hd & Hlen & ->).
  unfold fields in *. rewrite length_map in *.
  assert (Hd' : (if 6 <=? length (Re.split (delim_re ","%char) line)
                 then ","%char else ";"%char) = d).
  { destruct Hd as [->|[-> Hlt]].
    - by rewrite (proj2 (Nat.leb_le _ _) Hlen).
    - by rewrite (proj2 (Nat.leb_gt _ _) Hlt). }
  destruct (lookup_lt_is_Some_2 (Re.split (delim_re d) line) 5 ltac:(lia))
    as [piece Hpiece].
  exists n, seg, avoid, text, line, piece. rewrite Hd'.
  repeat split; try done.
  cbn [Priority]. unfold column. by rewrite list_lookup_fmap, Hpiece.
Qed.

Lemma priority_is_sixth_field_witness :
  main odd_tier = Returned (outcome_state (main odd_tier))
  ∧ Forall (λ r, ∃ n seg avoid text line piece,
                 ECall n seg avoid ∈ log (outcome_state (main odd_tier))
                 ∧ odd_tier n seg avoid = Text text
                 ∧ line ∈ PyStr.splitlines text
                 ∧ parse_line 6 line = Some r
                 ∧ Re.split
                     (delim_re
                        (if 6 <=? length (Re.split (delim_re ","%char) line)
                         then ","%char else ";"%char)) line !! 5
                   = Some piece
                 ∧ Priority r = PyStr.strip_quotes (PyStr.strip piece))
           (results (outcome_state (main odd_tier))).
Proof.
  split; [vm_compute; reflexivity|].
  apply (priority_is_sixth_field odd_tier TARGET_COUNT MAX_CALLS).
  vm_compute. reflexivity.
Defined.

(** ** The matcher against a declarative reading of the patterns *)

Section Matcher.

Variable ic : bool.

(** The continuation of a star round, when the body is known to agree with
    [matches]. *)
Lemma star_rounds_is_Some {A : Type} (r : regex)
    (k : option ascii → str → option A) :
  (∀ prev s (k' : option ascii → str → option A),
      is_Some (rmatch ic r prev s k')
      ↔ ∃ q, matches ic r (prev, s) q ∧ is_Some (k' q.1 q.2)) →
  ∀ n prev s, length s ≤ n →
    is_Some (star_rounds (rmatch ic r) k n prev s)
    ↔ ∃ q, matches ic (Star r) (prev, s) q ∧ is_Some (k q.1 q.2).
Proof.
  intros Hbody. induction n as [|n IH]; intros prev s Hn.
  - simpl. split.
    + intros Hk. exists (prev, s). split; [constructor|done].
    + intros (q & Hm & Hk). inversion Hm; subst; [done|].
      simpl in *. lia.
  - simpl.
    set (k' := λ (p' : option ascii) (s' : str),
                 if length s' <? length s
                 then star_rounds (rmatch ic r) k n p' s' else None).
    split.
    + destruct (rmatch ic r prev s k') as [x|] eqn:Hr.
      * intros _.
        assert (Hs : is_Some (rmatch ic r prev s k'))
          by (rewrite Hr; by eexists).
        apply Hbody in Hs as ([p1 s1] & Hm1 & Hk1).
        unfold k' in Hk1. simpl in Hk1.
        destruct (length s1 <? length s) eqn:Hlt; [|by destruct Hk1].
        apply Nat.ltb_lt in Hlt.
        apply IH in Hk1 as (q & Hm & Hk); [|lia].
        exists q. split; [|done]. by eapply m_star_round.
      * intros Hk. exists (prev, s). split; [constructor|done].
    + intros (q & Hm & Hk).
      inversion Hm as [| | | | | | | |r0 p0|r0 p0 [p1 s1] t0 Hm1 Hlt Hm2|];
        subst.
      * destruct (rmatch ic r prev s k'); [by eexists|done].
      * simpl in Hlt.
        assert (Hs : is_Some (rmatch ic r prev s k')).
        { apply Hbody. exists (p1, s1). split; [done|]. unfold k'. simpl.
          rewrite (proj2 (Nat.ltb_lt _ _) Hlt).
          apply IH; [lia|]. by exists q. }
        destruct Hs as [x ->]. by eexists.
Qed.

(** The matcher finds a match exactly when there is one that the
    continuation accepts. *)
Lemma rmatch_is_Some {A : Type} (r : regex) :
  ∀ prev s (k : option ascii → str → option A),
    is_Some (rmatch ic r prev s k)
    ↔ ∃ q, matches ic r (prev, s) q ∧ is_Some (k q.1 q.2).
Proof.
  revert A.
  induction r as [|c|c| | | | |r1 IH1 r2 IH2|r IH|r IH]; intros A prev s k;
    simpl.
  - split.
    + intros Hk. exists (prev, s). split; [constructor|done].
    + intros (q & Hm & Hk). by inversion Hm; subst.
  - split.
    + destruct s as [|a s]; [by intros []|].
      destruct (char_eqb ic c a) eqn:He; [|by intros []].
      intros Hk. exists (Some a, s). split; [by constructor|done].
    + intros (q & Hm & Hk). inversion Hm as [|? ? ? ? He| | | | | | | | |];
        subst. by rewrite He.
  - split.
    + destruct s as [|a s]; [by intros []|].
      destruct (char_eqb ic c a) eqn:He; [by intros []|].
      intros Hk. exists (Some a, s). split; [by constructor|done].
    + intros (q & Hm & Hk). inversion Hm as [| |? ? ? ? He| | | | | | | |];
        subst. by rewrite He.
  - split.
    + destruct s as [|a s]; [by intros []|].
      destruct (PyStr.isspace a) eqn:He; [|by intros []].
      intros Hk. exists (Some a, s). split; [by constructor|done].
    + intros (q & Hm & Hk). inversion Hm as [| | |? ? ? He| | | | | | |];
        subst. by rewrite He.
  - split.
    + destruct prev; [by intros []|].
      intros Hk. exists (None, s). split; [constructor|done].
    + intros (q & Hm & Hk). by inversion Hm; subst.
  - split.
    + destruct (at_eos s) eqn:He; [|by intros []].
      intros Hk. exists (prev, s). split; [by constructor|done].
    + intros (q & Hm & Hk). inversion Hm as [| | | | |? ? He| | | | |];
        subst. by rewrite He.
  - split.
    + destruct (at_wordb prev s) eqn:He; [|by intros []].
      intros Hk. exists (prev, s). split; [by constructor|done].
    + intros (q & Hm & Hk). inversion Hm as [| | | | | |? ? He| | | |];
        subst. by rewrite He.
  - rewrite IH1. split.
    + intros ([p1 s1] & Hm1 & Hk1). simpl in Hk1.
      apply IH2 in Hk1 as (q & Hm2 & Hk). exists q. split; [|done].
      by eapply m_cat.
    + intros (q & Hm & Hk).
      inversion Hm as [| | | | | | |? ? ? [p1 s1] ? Hm1 Hm2| | |]; subst.
      exists (p1, s1). split; [done|]. simpl. apply IH2. by exists q.
  - apply star_rounds_is_Some; [|done]. intros prev' s' k'. apply IH.
  - split.
    + destruct (rmatch ic r prev s (λ _ _, Some ())) eqn:Hr; [|by intros []].
      intros Hk. exists (prev, s). split; [|done].
      destruct (proj1 (IH unit prev s (λ _ _, Some ()))) as (q & Hm & _).
      { rewrite Hr. by eexists. }
      by eapply m_ahead.
    + intros (q & Hm & Hk). inversion Hm as [| | | | | | | | | |? ? q1 Hm1];
        subst.
      destruct (proj2 (IH unit prev s (λ _ _, Some ()))) as [x ->]; [|done].
      exists q1. split; [done|by eexists].
Qed.

(** A match only moves forward. *)
Lemma matches_length r p q : matches ic r p q → length q.2 ≤ length p.2.
Proof. induction 1; simpl in *; lia. Qed.

End Matcher.

(** ** The delimiter patterns *)

Section Delimiters.

Lemma quotes_app s1 s2 : quotes (s1 ++ s2) = quotes s1 + quotes s2.
Proof. induction s1 as [|c s1 IH]; simpl; [done|]. rewrite IH. lia. Qed.

Lemma lit_dquote_inv p q :
  matches false (Lit dquote) p q →
  p.2 = dquote :: q.2 ∧ q.1 = Some dquote.
Proof.
  inversion 1 as [|c a prev s He| | | | | | | | |]; subst. simpl in *.
  unfold char_eqb in He. apply bool_decide_eq_true_1 in He. by subst.
Qed.

Lemma star_notq_quotes p q :
  matches false (Star (NotLit dquote)) p q → quotes p.2 = quotes q.2.
Proof.
  intros H. remember (Star (NotLit dquote)) as r eqn:Er. revert Er.
  induction H as [| | | | | | | |r0 p0|r0 p0 q0 t0 H1 _ Hlt H2 IH|];
    intros Er; try discriminate; [done|].
  injection Er as ->. rewrite <- (IH eq_refl).
  inversion H1 as [| |c a prev s He| | | | | | | |]; subst. simpl.
  unfold char_eqb in He. by rewrite He.
Qed.

Lemma quoted_stretch_quotes p q :
  matches false quoted_stretch p q → quotes p.2 = 2 + quotes q.2.
Proof.
  unfold quoted_stretch.
  inversion 1 as [| | | | | | |? ? ? q1 ? H1 H234| | |]; subst.
  inversion H234 as [| | | | | | |? ? ? q2 ? H2 H34| | |]; subst.
  inversion H34 as [| | | | | | |? ? ? q3 ? H3 H4| | |]; subst.
  apply star_notq_quotes in H1, H3.
  apply lit_dquote_inv in H2 as [H2 _], H4 as [H4 _].
  rewrite H1, H2. simpl. rewrite H3, H4. simpl. lia.
Qed.

Lemma star_stretch_parity p q :
  matches false (Star quoted_stretch) p q →
  Nat.even (quotes p.2) = Nat.even (quotes q.2).
Proof.
  intros H. remember (Star quoted_stretch) as r eqn:Er. revert Er.
  induction H as [| | | | | | | |r0 p0|r0 p0 q0 t0 H1 _ Hlt H2 IH|];
    intros Er; try discriminate; [done|].
  injection Er as ->. rewrite <- (IH eq_refl).
  apply quoted_stretch_quotes in H1. rewrite H1. reflexivity.
Qed.

Lemma at_eos_quotes s : at_eos s = true → quotes s = 0.
Proof.
  destruct s as [|c [|c' s]]; simpl; try done.
  intros H. apply bool_decide_eq_true_1 in H as ->. done.
Qed.

(** The look-ahead holds only before an even number of double quotes. *)
Lemma balanced_tail_sound p q :
  matches false balanced_tail p q → Nat.even (quotes p.2) = true.
Proof.
  unfold balanced_tail. fold quoted_stretch.
  inversion 1 as [| | | | | | |? ? ? q1 ? H1 H23| | |]; subst.
  inversion H23 as [| | | | | | |? ? ? q2 ? H2 H3| | |]; subst.
  apply star_stretch_parity in H1. apply star_notq_quotes in H2.
  inversion H3 as [| | | | |? ? He| | | | |]; subst.
  apply at_eos_quotes in He. simpl in *. by rewrite H1, H2, He.
Qed.

(** The star of [[^q]] can run up to the next double quote, or to the end. *)
Lemma star_notq_run s : ∀ prev,
  ∃ p' s', matches false (Star (NotLit dquote)) (prev, s) (p', s')
           ∧ quotes s' = quotes s ∧ length s' ≤ length s
           ∧ (s' = [] ∨ ∃ t, s' = dquote :: t).
Proof.
  induction s as [|c s IH]; intros prev.
  - exists prev, []. repeat split; [constructor|auto..].
  - destruct (decide (c = dquote)) as [->|Hc].
    + exists prev, (dquote :: s). repeat split; [constructor|lia|eauto].
    + destruct (IH (Some c)) as (p' & s' & Hm & Hq & Hl & Hs).
      exists p', s'. repeat split; [|simpl|simpl; lia|done].
      * eapply m_star_round; [|simpl|exact Hm].
        -- constructor. unfold char_eqb. by apply bool_decide_eq_false_2.
        -- simpl. lia.
      * by rewrite bool_decide_eq_false_2.
Qed.

(** While two double quotes are left, a quoted stretch can be matched. *)
Lemma quoted_stretch_step prev s :
  2 ≤ quotes s →
  ∃ s', matches false quoted_stretch (prev, s) (Some dquote, s')
        ∧ quotes s = 2 + quotes s' ∧ length s' < length s.
Proof.
  intros Hq.
  destruct (star_notq_run s prev) as (p1 & s1 & Hm1 & Hq1 & Hl1 & Hs1).
  destruct Hs1 as [->|[t1 ->]]; [simpl in Hq1; lia|].
  destruct (star_notq_run t1 (Some dquote))
    as (p2 & s2 & Hm2 & Hq2 & Hl2 & Hs2).
  simpl in Hq1.
  destruct Hs2 as [->|[t2 ->]]; [simpl in Hq2; lia|].
  simpl in Hq2.
  exists t2. split; [|simpl in *; lia].
  unfold quoted_stretch.
  eapply m_cat; [exact Hm1|]. eapply m_cat; [by constructor|].
  eapply m_cat; [exact Hm2|]. by constructor.
Qed.

Lemma star_stretch_complete n : ∀ prev s,
  length s ≤ n → Nat.even (quotes s) = true →
  ∃ p' s', matches false (Star quoted_stretch) (prev, s) (p', s')
           ∧ quotes s' = 0.
Proof.
  induction n as [|n IH]; intros prev s Hn He.
  - destruct s; [|simpl in Hn; lia]. exists prev, []. split; [constructor|done].
  - destruct (quotes s) as [|[|m]] eqn:Hq.
    + exists prev, s. split; [constructor|done].
    + done.
    + destruct (quoted_stretch_step prev s) as (s1 & Hm1 & Hq1 & Hl1); [lia|].
      destruct (IH (Some dquote) s1) as (p' & s' & Hm & Hq'); [lia| |].
      { rewrite Hq in Hq1. replace (quotes s1) with m by lia.
        by rewrite Nat.even_succ_succ in He. }
      exists p', s'. split; [|done]. by eapply m_star_round.
Qed.

(** Before an even number of double quotes the look-ahead holds. *)
Lemma balanced_tail_complete prev s :
  Nat.even (quotes s) = true → ∃ q, matches false balanced_tail (prev, s) q.
Proof.
  intros He.
  destruct (star_stretch_complete (length s) prev s)
    as (p1 & s1 & Hm1 & Hq1); [done|done|].
  destruct (star_notq_run s1 p1) as (p2 & s2 & Hm2 & Hq2 & _ & Hs2).
  destruct Hs2 as [->|[t ->]].
  - exists (p2, []). unfold balanced_tail. fold quoted_stretch.
    eapply m_cat; [exact Hm1|]. eapply m_cat; [exact Hm2|]. by constructor.
  - simpl in Hq2. lia.
Qed.

(** The delimiter pattern at a position: it matches a delimiter that an even
    number of double quotes follows, taking that one character. *)
Lemma delim_match_at d prev c s :
  match_at false (delim_re d) prev (c :: s)
  = if bool_decide (c = d) && Nat.even (quotes s) then Some s else None.
Proof.
  change (match_at false (delim_re d) prev (c :: s))
    with (if char_eqb false d c
          then match rmatch false balanced_tail (Some c) s
                       (λ _ _, Some ()) with
               | Some _ => Some s
               | None => None
               end
          else None).
  unfold char_eqb.
  destruct (bool_decide (c = d)); [cbn [andb]|done].
  destruct (rmatch false balanced_tail (Some c) s (λ _ _, Some ()))
    as [x|] eqn:Hr.
  - assert (Hs : is_Some (rmatch false balanced_tail (Some c) s
                            (λ _ _, Some ()))) by (rewrite Hr; by eexists).
    apply rmatch_is_Some in Hs as (q & Hm & _).
    apply balanced_tail_sound in Hm. simpl in Hm. by rewrite Hm.
  - destruct (Nat.even (quotes s)) eqn:He; [|done].
    destruct (balanced_tail_complete (Some c) s He) as (q & Hm).
    assert (Hs : is_Some (rmatch false balanced_tail (Some c) s
                            (λ _ _, Some ()))).
    { apply rmatch_is_Some. exists q. split; [done|by eexists]. }
    rewrite Hr in Hs. by destruct Hs.
Qed.

Lemma delim_match_at_nil d prev : match_at false (delim_re d) prev [] = None.
Proof. done. Qed.

(** The split of the source is the cut read off above. *)
Lemma split_go_cut d s : ∀ prev field,
  Re.split_go (delim_re d) prev s 0 field = cut d s field.
Proof.
  induction s as [|c s IH]; intros prev field; [done|].
  cbn [Re.split_go cut]. rewrite delim_match_at.
  destruct (bool_decide (c = d) && Nat.even (quotes s)).
  - replace (length (c :: s) - length s) with 1 by (simpl; lia).
    by rewrite IH.
  - apply IH.
Qed.

Lemma split_cut d s : Re.split (delim_re d) s = cut d s [].
Proof. apply split_go_cut. Qed.

End Delimiters.

(** ** Quoted commas *)

Section Strip.

Variable p : ascii → bool.

Lemma lstrip_by_head s c : head (PyStr.lstrip_by p s) = Some c → p c = false.
Proof.
  induction s as [|a s IH]; simpl; [done|].
  destruct (p a) eqn:Ha; [done|]. simpl. by intros [= <-].
Qed.

Lemma lstrip_by_suffix s : ∃ u, s = u ++ PyStr.lstrip_by p s.
Proof.
  induction s as [|a s [u IH]]; simpl; [by exists []|].
  destruct (p a).
  - exists (a :: u). simpl. by rewrite <- IH.
  - by exists [].
Qed.

Lemma last_rev (l : str) : last (rev l) = head l.
Proof. destruct l as [|a l]; [done|]. simpl. apply last_snoc. Qed.

Lemma rstrip_by_last s c : last (PyStr.rstrip_by p s) = Some c → p c = false.
Proof. unfold PyStr.rstrip_by. rewrite last_rev. apply lstrip_by_head. Qed.

Lemma rstrip_by_prefix s : ∃ u, s = PyStr.rstrip_by p s ++ u.
Proof.
  unfold PyStr.rstrip_by. destruct (lstrip_by_suffix (rev s)) as [u Hu].
  exists (rev u). rewrite <- rev_app_distr, <- Hu. by rewrite rev_involutive.
Qed.

Lemma strip_by_ends s c :
  head (PyStr.strip_by p s) = Some c ∨ last (PyStr.strip_by p s) = Some c →
  p c = false.
Proof.
  unfold PyStr.strip_by. intros [H|H]; [|by eapply rstrip_by_last].
  apply (lstrip_by_head s).
  destruct (rstrip_by_prefix (PyStr.lstrip_by p s)) as [u Hu].
  rewrite Hu. by destruct (PyStr.rstrip_by p (PyStr.lstrip_by p s)).
Qed.

End Strip.



Section QuotedComma.

Variable d : ascii.



End QuotedComma.



Example quoted_line_parsed :
  option_map (λ r, (Company r, Segment r, Country_Region r))
    (parse_line 6 quoted_line)
  = Some (py "x", py "a,b", py "c").
Proof. vm_compute. reflexivity. Qed.


(** ** Names that are not companies *)

Section Search.

Lemma isword_lower a : PyStr.isword (PyStr.lower_char a) = PyStr.isword a.
Proof. destruct a as [[] [] [] [] [] [] [] []]; vm_compute; reflexivity. Qed.

Lemma isalpha_not_space a :
  PyStr.isalpha_char a = true → PyStr.isspace a = false.
Proof.
  destruct a as [[] [] [] [] [] [] [] []]; vm_compute; intros H;
    (reflexivity || discriminate H).
Qed.

Lemma rmatch_Cat {A} ic r1 r2 prev s (k : option ascii → str → option A) :
  rmatch ic (Cat r1 r2) prev s k
  = rmatch ic r1 prev s (λ p' s', rmatch ic r2 p' s' k).
Proof. reflexivity. Qed.

Lemma last_or_last prev s : s ≠ [] → last_or prev s = last s.
Proof.
  revert prev. induction s as [|a s IH]; intros prev Hs; [done|].
  destruct s as [|b s]; [done|]. simpl in *. by rewrite IH.
Qed.

(** A run of literals, read without regard to case. *)
Lemma rmatch_Lits {A} w : ∀ s1 s2 prev (k : option ascii → str → option A),
  PyStr.lower s1 = PyStr.lower w →
  rmatch true (Lits w) prev (s1 ++ s2) k = k (last_or prev s1) s2.
Proof.
  induction w as [|c w IH]; intros s1 s2 prev k Hl.
  - destruct s1; [done|discriminate Hl].
  - destruct s1 as [|a s1]; [discriminate Hl|].
    injection Hl as Ha Hl. cbn [Lits app last_or].
    rewrite rmatch_Cat. cbn [rmatch]. unfold char_eqb.
    rewrite (bool_decide_eq_true_2 _ Ha). by apply IH.
Qed.

(** A match somewhere in the text is found by the search. *)
Lemma search_from_at ic r pre : ∀ prev post,
  is_Some (match_at ic r (last_or prev pre) post) →
  search_from ic r prev (pre ++ post) = true.
Proof.
  induction pre as [|c pre IH]; intros prev post Hm.
  - destruct post; simpl in *; by destruct Hm as [x ->].
  - cbn [app search_from].
    destruct (match_at ic r prev (c :: pre ++ post)); [done|].
    by apply IH.
Qed.

Lemma lower_split name w rest :
  PyStr.lower name = w ++ rest →
  ∃ s1 s2, name = s1 ++ s2 ∧ PyStr.lower s1 = w ∧ PyStr.lower s2 = rest.
Proof.
  unfold PyStr.lower. intros H.
  apply (fmap_app_inv PyStr.lower_char) in H as (s1 & s2 & -> & -> & ->).
  by exists s1, s2.
Qed.

Lemma search_prefix w name :
  PyStr.lower w = w → starts_with w (PyStr.lower name) →
  Re.search true (Cat Bos (Lits w)) name = true.
Proof.
  intros Hw [rest H]. apply lower_split in H as (s1 & s2 & -> & H1 & _).
  apply (search_from_at true _ [] None). unfold match_at.
  rewrite rmatch_Cat. cbn [rmatch last_or].
  rewrite rmatch_Lits by congruence. by eexists.
Qed.

Lemma search_exact w name :
  PyStr.lower w = w → PyStr.lower name = w →
  Re.search true (Cat Bos (Cat (Lits w) Eos)) name = true.
Proof.
  intros Hw H. apply (search_from_at true _ [] None). unfold match_at.
  rewrite rmatch_Cat. cbn [rmatch last_or]. rewrite <- (app_nil_r name).
  rewrite rmatch_Lits by congruence. by eexists.
Qed.

Lemma search_contains w name :
  PyStr.lower w = w → contains w (PyStr.lower name) →
  Re.search true (Lits w) name = true.
Proof.
  intros Hw (pre & post & H).
  apply lower_split in H as (s1 & s23 & -> & _ & H).
  apply lower_split in H as (s2 & s3 & -> & H2 & _).
  apply search_from_at. unfold match_at.
  rewrite rmatch_Lits by congruence. by eexists.
Qed.

Lemma search_at_word_end w name :
  PyStr.lower w = w → is_word_opt (last w) = true →
  contains_at_word_end w (PyStr.lower name) →
  Re.search true (Cat (Lits w) WordB) name = true.
Proof.
  intros Hw Hlast (pre & post & H & Hpost).
  apply lower_split in H as (s1 & s23 & -> & _ & H).
  apply lower_split in H as (s2 & s3 & -> & H2 & H3).
  apply search_from_at. unfold match_at.
  rewrite rmatch_Cat, rmatch_Lits by congruence. cbn [rmatch].
  assert (Hne : s2 ≠ []).
  { intros ->. simpl in H2. subst w. done. }
  assert (Hb : at_wordb (last_or (last_or None s1) s2) s3 = true).
  { unfold at_wordb. rewrite last_or_last by done.
    assert (is_word_opt (last s2) = true) as ->.
    { rewrite <- Hlast, <- H2. unfold PyStr.lower.
      change (map PyStr.lower_char s2) with (PyStr.lower_char <$> s2).
      rewrite fmap_last. destruct (last s2); [|done].
      simpl. by rewrite isword_lower. }
    assert (is_word_opt (head s3) = false) as ->; [|done].
    rewrite <- Hpost, <- H3. destruct s3; [done|].
    simpl. by rewrite isword_lower. }
  rewrite Hb. by eexists.
Qed.

(** A text without white space is one token. *)
Lemma split_go_one_token s : ∀ word,
  Forall (λ c, PyStr.isspace c = false) s → word ++ s ≠ [] →
  PyStr.split_go s word = [word ++ s].
Proof.
  induction s as [|c s IH]; intros word Hs Hne.
  - rewrite app_nil_r in *. by destruct word.
  - apply Forall_cons in Hs as [Hc Hs]. simpl. rewrite Hc.
    rewrite IH; [by rewrite <- app_assoc|done|].
    rewrite <- app_assoc. by destruct word.
Qed.

Lemma looks_like_company_bad_pattern bp name :
  In bp bad_patterns → Re.search true bp name = true →
  looks_like_company name = false.
Proof.
  intros Hin Hs. unfold looks_like_company.
  assert (existsb (λ bp, Re.search true bp name) bad_patterns = true) as ->;
    [|done].
  apply existsb_exists. by exists bp.
Qed.

Lemma looks_like_company_short_token name :
  name ≠ [] → Forall (λ c, PyStr.isalpha_char c = true) name →
  length name ≤ 3 → looks_like_company name = false.
Proof.
  intros Hne Ha Hl. unfold looks_like_company.
  destruct (existsb _ bad_patterns); [done|].
  assert (PyStr.split name = [name]) as ->.
  { unfold PyStr.split. rewrite split_go_one_token; [done| |done].
    eapply Forall_impl; [exact Ha|]. apply isalpha_not_space. }
  assert (PyStr.isalpha name = true) as ->.
  { unfold PyStr.isalpha. destruct name; [done|].
    apply forallb_forall. intros c Hc. rewrite Forall_forall in Ha.
    apply Ha. by apply list_elem_of_In. }
  by rewrite (proj2 (Nat.leb_le _ _) Hl).
Qed.

End Search.



(** The four names of the specification. *)
Example non_company_examples :
  map looks_like_company
    [py "N/A"; py "Keine Angabe"; py "sample-co.com"; py "abc"]
  = [false; false; false; false].
Proof. vm_compute. reflexivity. Qed.


(** * Further properties *)

(** ** One pass of the filter *)

Section DedupePass.

Implicit Types (rows clean : list row) (r : row) (acc : list row * gset str).

(** After a pass, every candidate of the batch is settled: its key is empty
    or in the set, or its name does not look like a company. *)
Lemma dedupe_fold_settled rows : ∀ acc r,
  r ∈ rows →
  key r = [] ∨ key r ∈ (foldl dedupe_step acc rows).2
  ∨ looks_like_company (Company r) = false.
Proof.
  induction rows as [|r0 rows IH]; intros acc r Hr; [by apply elem_of_nil in Hr|].
  apply elem_of_cons in Hr as [->|Hr]; [|by apply IH].
  simpl. destruct (dedupe_fold rows (dedupe_step acc r0)) as (added & -> & _).
  simpl.
  destruct (dedupe_step_cases acc r0) as [[-> [H|[H|H]]]|(-> & _)]; simpl;
    [auto|right; left; set_solver|auto|right; left; set_solver].
Qed.

(** A batch of settled candidates leaves the accumulator as it is. *)
Lemma dedupe_fold_settled_id rows : ∀ acc,
  Forall (λ r, key r = [] ∨ key r ∈ acc.2
               ∨ looks_like_company (Company r) = false) rows →
  foldl dedupe_step acc rows = acc.
Proof.
  induction rows as [|r0 rows IH]; intros acc Hall; [done|].
  apply Forall_cons in Hall as [H0 Hall]. simpl.
  destruct (dedupe_step_cases acc r0) as [[-> _]|(_ & Hk & Hn & Hl)];
    [by apply IH|].
  destruct H0 as [H0|[H0|H0]]; [done|done|congruence].
Qed.

End DedupePass.

(** X1: the rows that [dedupe_and_filter] returns are rows of the batch, in
    the order of the batch, and each has a key that is not empty and was not
    in the set before, and a name that looks like a company. *)
Theorem dedupe_keeps_order_and_acceptable (rows : list row)
    (seen0 : gset str) :
  (dedupe_and_filter rows seen0).1 `sublist_of` rows
  ∧ Forall (λ r, key r ≠ [] ∧ (key r ∉ seen0)
                 ∧ looks_like_company (Company r) = true)
      (dedupe_and_filter rows seen0).1.
Proof.
  by destruct (dedupe_and_filter_spec rows seen0) as (clean & -> & _ & ? & ?).
Qed.

(** X2: the set never loses a key, and a pass makes it larger by exactly the
    number of rows it returns. *)
Theorem dedupe_seen_grows_by_accepted (rows : list row) (seen0 : gset str) :
  seen0 ⊆ (dedupe_and_filter rows seen0).2
  ∧ size (dedupe_and_filter rows seen0).2
    = size seen0 + length (dedupe_and_filter rows seen0).1.
Proof.
  destruct (dedupe_and_filter_spec rows seen0)
    as (clean & -> & Hnd & _ & Hall). simpl.
  split; [set_solver|].
  rewrite size_union.
  - unfold keys. rewrite size_list_to_set by done. rewrite length_map. lia.
  - intros k Hk Hk0. apply elem_of_keys in Hk.
    apply list_elem_of_fmap in Hk as (r & -> & Hr).
    rewrite Forall_forall in Hall. by destruct (Hall r Hr) as (_ & ? & _).
Qed.

(** X3: a second pass over the same batch, with the set that the first pass
    left, returns no row and leaves the set as it is. *)
Theorem dedupe_second_pass_accepts_nothing (rows : list row)
    (seen0 : gset str) :
  dedupe_and_filter rows (dedupe_and_filter rows seen0).2
  = ([], (dedupe_and_filter rows seen0).2).
Proof.
  unfold dedupe_and_filter at 1. apply dedupe_fold_settled_id.
  apply Forall_forall. intros r Hr. simpl.
  apply (dedupe_fold_settled rows ([], seen0) r Hr).
Qed.

(** X4: a candidate whose key is not empty and whose name looks like a company
    has its key in the set after the pass; if the key was not in the set
    before, a returned row carries it. *)
Theorem dedupe_acceptable_key_recorded (rows : list row) (seen0 : gset str)
    (r : row) :
  r ∈ rows → key r ≠ [] → looks_like_company (Company r) = true →
  key r ∈ (dedupe_and_filter rows seen0).2
  ∧ (key r ∉ seen0 →
     ∃ r', r' ∈ (dedupe_and_filter rows seen0).1 ∧ key r' = key r).
Proof.
  intros Hr Hk Hl.
  assert (Hin : key r ∈ (dedupe_and_filter rows seen0).2).
  { destruct (dedupe_fold_settled rows ([], seen0) r Hr) as [H|[H|H]];
      [done|exact H|congruence]. }
  split; [done|]. intros Hn.
  destruct (dedupe_and_filter_spec rows seen0) as (clean & He & _).
  rewrite He in *. simpl in *.
  apply elem_of_union in Hin as [Hin|Hin]; [|done].
  apply elem_of_keys in Hin.
  apply list_elem_of_fmap in Hin as (r' & Hk' & Hr'). eauto.
Qed.

Lemma dedupe_acceptable_key_recorded_witness :
  key (named (py "Beta AG"))
  ∈ (dedupe_and_filter [named (py "N/A"); named (py "Beta AG")]
       {[ py "acme gmbh" ]}).2
  ∧ (key (named (py "Beta AG")) ∉ ({[ py "acme gmbh" ]} : gset str) →
     ∃ r', r' ∈ (dedupe_and_filter [named (py "N/A"); named (py "Beta AG")]
                   {[ py "acme gmbh" ]}).1
           ∧ key r' = key (named (py "Beta AG"))).
Proof.
  apply (dedupe_acceptable_key_recorded
           [named (py "N/A"); named (py "Beta AG")] {[ py "acme gmbh" ]}
           (named (py "Beta AG"))).
  - apply list_elem_of_In. simpl. tauto.
  - vm_compute. discriminate.
  - vm_compute. reflexivity.
Defined.

(** ** Runs of the loop *)

Section LoopRuns.

Variable ask : collaborator.
Variables target cap : nat.

Lemma last_n_length {A} n (l : list A) : length (last_n n l) ≤ n.
Proof. unfold last_n. rewrite length_drop. lia. Qed.

Lemma avoid_list_of_length st : length (avoid_list_of st) ≤ AVOID_ROLLING_MAX.
Proof. unfold avoid_list_of. rewrite length_map. apply last_n_length. Qed.

Lemma call_events_app l1 l2 :
  call_events (l1 ++ l2) = call_events l1 ++ call_events l2.
Proof. apply List.filter_app. Qed.

Lemma call_events_none l : calls l = 0 → call_events l = [].
Proof. unfold calls. fold (call_events l). by destruct (call_events l). Qed.

Lemma added_total_app l1 l2 :
  added_total (l1 ++ l2) = added_total l1 + added_total l2.
Proof.
  induction l1 as [|e l1 IH]; [done|]. destruct e; simpl; rewrite IH; lia.
Qed.

(** One more call, with the number and the segment of its round, keeps a log
    numbered. *)
Lemma calls_numbered_snoc l n avoid extra :
  calls_numbered l → calls l = n → calls extra = 0 →
  length avoid ≤ AVOID_ROLLING_MAX →
  calls_numbered ((l ++ [ECall n (segment_of_round n) avoid]) ++ extra).
Proof.
  intros Hl Hn Hx Ha i e.
  rewrite !call_events_app, (call_events_none extra Hx), app_nil_r.
  cbn [call_events List.filter is_call].
  destruct (decide (i < length (call_events l))) as [Hi|Hi].
  - rewrite lookup_app_l by done. apply Hl.
  - rewrite lookup_app_r by lia.
    destruct (i - length (call_events l)) as [|m] eqn:Hm; [|done].
    intros [= <-]. unfold calls in Hn. fold (call_events l) in Hn.
    replace i with n by lia. eauto.
Qed.

End LoopRuns.

Section LoopLog.

Variable ask : collaborator.
Variables target cap : nat.

Lemma iteration_well_logged st :
  well_logged st →
  match iteration ask st with
  | Returned st' => well_logged st'
  | Raised st' =>
      seg_index st' = S (call_count st') ∧ calls_numbered (log st')
      ∧ call_count st' = call_count st ∧ results st' = results st
      ∧ ask (call_count st) (segment_of_round (call_count st))
          (avoid_list_of st) = Raise
  | Unfinished _ => False
  end.
Proof.
  intros (Hseg & Hcalls & Hnum & Hadd).
  assert (Hcur : current_segment st = segment_of_round (call_count st)).
  { unfold current_segment, segment_of_round. by rewrite Hseg. }
  unfold iteration. fold (avoid_list_of st). rewrite Hcur.
  unfold generate_batch.
  destruct (ask (call_count st) (segment_of_round (call_count st))
              (avoid_list_of st)) as [text|] eqn:Hask.
  - assert (Hgen : ∀ extra st',
      calls extra = 0 →
      seg_index st' = seg_index st + 1 →
      call_count st' = call_count st + 1 →
      log st' = (log st ++ [ECall (call_count st)
                              (segment_of_round (call_count st))
                              (avoid_list_of st)]) ++ extra →
      added_total extra + length (results st) = length (results st') →
      well_logged st').
    { intros extra st' Hx Hs Hc Hlog Hres. unfold well_logged.
      rewrite Hs, Hc, Hlog. repeat split.
      - lia.
      - rewrite !calls_app, Hx, Hcalls. unfold calls. simpl. lia.
      - apply calls_numbered_snoc; [done|done|done|].
        apply avoid_list_of_length.
      - rewrite !added_total_app, Hadd. simpl. lia. }
    destruct (match text with
              | [] => Some []
              | _ :: _ => Some (parse_csv_block text 6)
              end) as [batch|] eqn:Hb; [|by destruct text].
    destruct batch as [|r batch].
    + by apply (Hgen [EWarn (call_count st + 1)
                        (segment_of_round (call_count st)).1; ESleep 2000]).
    + destruct (dedupe_and_filter (r :: batch) (seen st)) as [clean seen'].
      destruct clean as [|c clean].
      * by apply (Hgen [EInfo (call_count st + 1)]).
      * apply (Hgen [EOk (length (c :: clean))
                       (length (results st ++ c :: clean))
                       (segment_of_round (call_count st)).1; ESleep 800]);
          try done.
        cbn [added_total results]. rewrite length_app. simpl. lia.
  - simpl. repeat split; try done; [lia|].
    rewrite <- (app_nil_r (_ ++ [_])).
    apply calls_numbered_snoc; [done|done|done|apply avoid_list_of_length].
Qed.

Lemma init_well_logged : well_logged init.
Proof. repeat split. intros i e H. by destruct i. Qed.

(** The states between rounds are well logged, a run that returns has left
    the loop by its condition, and one that raises did so at the call that
    its counter numbers. *)
Lemma loop_well_logged rounds : ∀ st,
  well_logged st →
  match loop ask target cap rounds st with
  | Returned st' => well_logged st' ∧ continues target cap st' = false
  | Raised st' =>
      seg_index st' = S (call_count st') ∧ calls_numbered (log st')
      ∧ ask (call_count st') (segment_of_round (call_count st'))
          (avoid_list_of st') = Raise
  | Unfinished st' => well_logged st'
  end.
Proof.
  induction rounds as [|n IH]; intros st Hst; simpl.
  - by destruct (continues target cap st) eqn:Hc.
  - destruct (continues target cap st) eqn:Hc; [|done].
    pose proof (iteration_well_logged st Hst) as Hit.
    destruct (iteration ask st) as [st'|st'|st']; [by apply IH| |done].
    destruct Hit as (H1 & H2 & H3 & H4 & H5).
    split; [exact H1|]. split; [exact H2|].
    unfold avoid_list_of in *. rewrite H3, H4. exact H5.
Qed.

(** The rows collected are never taken back by a round. *)
Lemma loop_results_prefix rounds : ∀ st,
  results st `prefix_of` results (outcome_state (loop ask target cap rounds st)).
Proof.
  induction rounds as [|n IH]; intros st; simpl.
  - by destruct (continues target cap st).
  - destruct (continues target cap st); [|done].
    pose proof (iteration_cases ask st) as H. simpl in H.
    destruct (generate_batch _ _ _ _) as [batch|].
    + destruct H as (clean & extra & -> & _).
      etrans; [|apply IH]. simpl. by apply prefix_app_r.
    + by rewrite H.
Qed.

(** Every row collected passed the filter. *)
Lemma loop_results_filtered rounds : ∀ st,
  Forall (λ r, key r ≠ [] ∧ looks_like_company (Company r) = true)
    (results st) →
  Forall (λ r, key r ≠ [] ∧ looks_like_company (Company r) = true)
    (results (outcome_state (loop ask target cap rounds st))).
Proof.
  induction rounds as [|n IH]; intros st Hst; simpl.
  - by destruct (continues target cap st).
  - destruct (continues target cap st); [|done].
    pose proof (iteration_cases ask st) as H. simpl in H.
    destruct (generate_batch _ _ _ _) as [batch|].
    + destruct H as (clean & extra & -> & _ & _ & Hd & _).
      apply IH. simpl. apply Forall_app. split; [done|].
      destruct (dedupe_and_filter_spec batch (seen st))
        as (clean' & Hd' & _ & _ & Hall).
      rewrite Hd in Hd'. injection Hd' as <- _.
      eapply Forall_impl; [exact Hall|]. by intros r (? & _ & ?).
    + by rewrite H.
Qed.

End LoopLog.

Lemma trim_call_events target st :
  call_events (log (trim target st)) = call_events (log st).
Proof.
  unfold trim. simpl. rewrite call_events_app. simpl. by rewrite app_nil_r.
Qed.

Lemma trim_added_total target st :
  added_total (log (trim target st)) = added_total (log st).
Proof. unfold trim. simpl. rewrite added_total_app. simpl. lia. Qed.

(** X5: a collection that returns has either filled the target exactly, or
    stayed below it with the counter of calls at the cap. *)
Theorem collect_returns_at_target_or_cap (ask : collaborator)
    (target cap : nat) st :
  collect ask target cap = Returned st →
  length (results st) = target
  ∨ (length (results st) < target ∧ call_count st = cap).
Proof.
  unfold collect. intros H.
  pose proof (loop_well_logged ask target cap cap init init_well_logged)
    as Hl.
  destruct (loop_ends ask target cap cap init) as [Hc _];
    [done|simpl; lia|simpl; lia|].
  destruct (loop ask target cap cap init) as [st'|st'|st']; try discriminate.
  injection H as <-. destruct Hl as [_ Hstop]. simpl in Hc.
  unfold trim. simpl. rewrite length_take.
  unfold continues in Hstop. apply andb_false_iff in Hstop as [Hs|Hs].
  - apply Nat.ltb_ge in Hs. left. lia.
  - apply Nat.ltb_ge in Hs.
    destruct (decide (target ≤ length (results st'))); [left; lia|right; lia].
Qed.

Lemma collect_returns_at_target_or_cap_witness :
  (length (results (outcome_state (collect repeating 1 5))) = 1
   ∨ (length (results (outcome_state (collect repeating 1 5))) < 1
      ∧ call_count (outcome_state (collect repeating 1 5)) = 5))
  ∧ (length (results (outcome_state (collect repeating 3 5))) = 3
     ∨ (length (results (outcome_state (collect repeating 3 5))) < 3
        ∧ call_count (outcome_state (collect repeating 3 5)) = 5)).
Proof.
  split.
  - apply (collect_returns_at_target_or_cap repeating 1 5).
    vm_compute. reflexivity.
  - apply (collect_returns_at_target_or_cap repeating 3 5).
    vm_compute. reflexivity.
Defined.

(** X6: in the log of any collection the calls are numbered 0, 1, 2, ...
    without a gap, the call numbered [i] is for the segment at position
    [i mod 10] of the list, and it carries at most 300 names to avoid. *)
Theorem calls_rotate_through_segments (ask : collaborator)
    (target cap : nat) :
  calls_numbered (log (outcome_state (collect ask target cap))).
Proof.
  unfold collect.
  pose proof (loop_well_logged ask target cap cap init init_well_logged)
    as Hl.
  destruct (loop ask target cap cap init) as [st'|st'|st'];
    cbn [outcome_state].
  - destruct Hl as [(_ & _ & Hn & _) _]. intros i e.
    rewrite trim_call_events. apply Hn.
  - by destruct Hl as (_ & Hn & _).
  - by destruct Hl as (_ & _ & Hn & _).
Qed.

(** X7: the rows that a collection returns are as many as its progress
    messages report as added, cut at the target. *)
Theorem progress_messages_account_for_rows (ask : collaborator)
    (target cap : nat) st :
  collect ask target cap = Returned st →
  length (results st) = target `min` added_total (log st).
Proof.
  unfold collect. intros H.
  pose proof (loop_well_logged ask target cap cap init init_well_logged)
    as Hl.
  destruct (loop ask target cap cap init) as [st'|st'|st']; try discriminate.
  injection H as <-. destruct Hl as [(_ & _ & _ & Ha) _].
  rewrite trim_added_total, Ha. unfold trim. simpl. by rewrite length_take.
Qed.

Lemma progress_messages_account_for_rows_witness :
  length (results (outcome_state (collect five_new_each_call 7 MAX_CALLS)))
  = 7 `min` added_total
              (log (outcome_state (collect five_new_each_call 7 MAX_CALLS)))
  ∧ added_total
      (log (outcome_state (collect five_new_each_call 7 MAX_CALLS))) = 10.
Proof.
  split; [|vm_compute; reflexivity].
  apply (progress_messages_account_for_rows five_new_each_call 7 MAX_CALLS).
  vm_compute. reflexivity.
Defined.

(** X8: no round takes back a row: what is collected at any point of the
    loop is a prefix of what is collected later. *)
Theorem results_only_grow (ask : collaborator) (target cap rounds : nat) st :
  results st
  `prefix_of` results (outcome_state (loop ask target cap rounds st)).
Proof. apply loop_results_prefix. Qed.

(** X9: every row of a collection has a key that is not empty and a name
    that looks like a company. *)
Theorem collected_rows_passed_filter (ask : collaborator)
    (target cap : nat) :
  Forall (λ r, key r ≠ [] ∧ looks_like_company (Company r) = true)
    (results (outcome_state (collect ask target cap))).
Proof.
  unfold collect.
  pose proof (loop_results_filtered ask target cap cap init (Forall_nil_2 _))
    as H.
  destruct (loop ask target cap cap init) as [st'|st'|st']; simpl in *;
    [by apply Forall_take|done|done].
Qed.

(** X10: a collection raises only when the service does: with a service that
    never raises it returns, and if it raises, the service raised at the call
    that the counter numbers, for the segment of that round. *)
Theorem raises_only_when_service_raises (ask : collaborator)
    (target cap : nat) :
  ((∀ n seg avoid, ask n seg avoid ≠ Raise) →
   ∃ st, collect ask target cap = Returned st)
  ∧ (∀ st, collect ask target cap = Raised st →
           call_count st < cap
           ∧ ask (call_count st) (segment_of_round (call_count st))
               (avoid_list_of st) = Raise).
Proof.
  unfold collect.
  pose proof (loop_well_logged ask target cap cap init init_well_logged)
    as Hl.
  destruct (loop_ends ask target cap cap init) as [Hc Hu];
    [done|simpl; lia|simpl; lia|].
  destruct (loop ask target cap cap init) as [st'|st'|st']; simpl in Hc.
  - split; [by eexists|]. intros st H. discriminate H.
  - destruct Hl as (_ & _ & Hr). split.
    + intros Hnever. by destruct (Hnever _ _ _ Hr).
    + intros st [= <-]. split; [lia|done].
  - by destruct (Hu st').
Qed.

Lemma raises_only_when_service_raises_witness :
  (∃ st, collect silent 3 5 = Returned st)
  ∧ call_count (outcome_state (collect raising_at_third 3 5)) < 5
  ∧ raising_at_third
      (call_count (outcome_state (collect raising_at_third 3 5)))
      (segment_of_round
         (call_count (outcome_state (collect raising_at_third 3 5))))
      (avoid_list_of (outcome_state (collect raising_at_third 3 5)))
    = Raise.
Proof.
  split.
  - apply (proj1 (raises_only_when_service_raises silent 3 5)).
    intros n seg avoid. discriminate.
  - apply (proj2 (raises_only_when_service_raises raising_at_third 3 5)).
    vm_compute. reflexivity.
Defined.

(** ** The normalisation of names *)

Section Normalize.

Local Abbreviation ws := PyStr.isspace.

Lemma lstrip_by_length (p : ascii → bool) s :
  length (PyStr.lstrip_by p s) ≤ length s.
Proof.
  induction s as [|c s IH]; simpl; [done|]. destruct (p c); simpl; lia.
Qed.

(** The greedy star of white space runs to the end of the white space. *)
Lemma star_space_run n : ∀ prev s,
  length s ≤ n →
  star_rounds (rmatch false Space) (λ _ rest, Some rest) n prev s
  = Some (PyStr.lstrip_by ws s).
Proof.
  induction n as [|n IH]; intros prev s Hn.
  - destruct s; [done|simpl in Hn; lia].
  - destruct s as [|c s]; [done|]. cbn [star_rounds rmatch PyStr.lstrip_by].
    destruct (ws c); [|done].
    replace (length s <? length (c :: s)) with true
      by (symmetry; apply Nat.ltb_lt; simpl; lia).
    rewrite IH by (simpl in Hn; lia). done.
Qed.

(** The pattern for a run of white space, at a position. *)
Lemma space_run_match_at prev c s :
  match_at false (Plus Space) prev (c :: s)
  = if ws c then Some (PyStr.lstrip_by ws s) else None.
Proof.
  unfold match_at, Plus. cbn [rmatch]. destruct (ws c); [|done].
  by apply star_space_run.
Qed.

Lemma space_run_cons c s :
  space_run (c :: s) = if ws c then S (space_run s) else 0.
Proof.
  unfold space_run. simpl. pose proof (lstrip_by_length ws s).
  destruct (ws c); simpl; lia.
Qed.

(** The substitution of the source is the collapse read off directly. *)
Lemma sub_go_collapse s : ∀ prev,
  Re.sub_go (Plus Space) (py " ") prev s 0 = collapse_go false s
  ∧ Re.sub_go (Plus Space) (py " ") prev s (space_run s) = collapse_go true s.
Proof.
  induction s as [|c s IH]; intros prev; [done|].
  destruct (IH (Some c)) as [IH0 IH1].
  assert (H0 : Re.sub_go (Plus Space) (py " ") prev (c :: s) 0
               = collapse_go false (c :: s)).
  { cbn [Re.sub_go collapse_go]. rewrite space_run_match_at.
    destruct (ws c) eqn:Hc; [|by rewrite IH0].
    pose proof (lstrip_by_length ws s).
    replace (length (c :: s) - length (PyStr.lstrip_by ws s))
      with (S (space_run s)) by (unfold space_run; simpl; lia).
    by rewrite IH1. }
  split; [exact H0|].
  rewrite space_run_cons. destruct (ws c) eqn:Hc.
  - cbn [Re.sub_go collapse_go]. by rewrite Hc, IH1.
  - rewrite H0. simpl. by rewrite Hc.
Qed.

Lemma normalize_name_collapse name :
  normalize_name name = collapse_go false (PyStr.lower (PyStr.strip name)).
Proof. unfold normalize_name, Re.sub. apply sub_go_collapse. Qed.

(** *** Stripping *)

Lemma lstrip_by_nil (p : ascii → bool) s :
  PyStr.lstrip_by p s = [] ↔ Forall (λ c, p c = true) s.
Proof.
  induction s as [|c s IH]; simpl; [by split|].
  destruct (p c) eqn:Hc.
  - rewrite IH. split; [by constructor|by inversion 1].
  - split; [done|]. inversion 1; congruence.
Qed.

Lemma lstrip_by_blank_app (p : ascii → bool) w s :
  Forall (λ c, p c = true) w →
  PyStr.lstrip_by p (w ++ s) = PyStr.lstrip_by p s.
Proof.
  induction 1 as [|c w Hc _ IH]; [done|]. simpl. by rewrite Hc.
Qed.

Lemma lstrip_by_id (p : ascii → bool) s :
  (∀ c, head s = Some c → p c = false) → PyStr.lstrip_by p s = s.
Proof. destruct s as [|c s]; [done|]. intros H. simpl. by rewrite H. Qed.

Lemma strip_by_nil (p : ascii → bool) s :
  PyStr.strip_by p s = [] ↔ Forall (λ c, p c = true) s.
Proof.
  unfold PyStr.strip_by, PyStr.rstrip_by. split.
  - intros H. apply (f_equal (@rev ascii)) in H.
    rewrite rev_involutive in H. simpl in H.
    apply lstrip_by_nil in H. apply lstrip_by_nil.
    destruct (PyStr.lstrip_by p s) as [|c t] eqn:Ht; [done|].
    pose proof (lstrip_by_head p s c) as Hc. rewrite Ht in Hc.
    specialize (Hc eq_refl).
    assert (Hin : p c = true).
    { rewrite Forall_forall in H. apply H. apply list_elem_of_In.
      apply -> in_rev. by left. }
    congruence.
  - intros H. apply lstrip_by_nil in H. by rewrite H.
Qed.

Lemma strip_by_blank_around (p : ascii → bool) w s w' :
  Forall (λ c, p c = true) w → Forall (λ c, p c = true) w' →
  PyStr.strip_by p (w ++ s ++ w') = PyStr.strip_by p s.
Proof.
  intros Hw Hw'. unfold PyStr.strip_by. rewrite lstrip_by_blank_app by done.
  destruct (lstrip_by_suffix p s) as [u Hu].
  destruct (decide (PyStr.lstrip_by p s = [])) as [He|Hne].
  - rewrite He. apply lstrip_by_nil in He.
    rewrite (proj2 (lstrip_by_nil p (s ++ w'))); [done|].
    apply Forall_app. by split.
  - assert (Hl : PyStr.lstrip_by p (s ++ w') = PyStr.lstrip_by p s ++ w').
    { clear Hu u. induction s as [|c s IH]; [done|]. simpl in *.
      destruct (p c); [by apply IH|done]. }
    rewrite Hl. unfold PyStr.rstrip_by. rewrite rev_app_distr.
    rewrite lstrip_by_blank_app; [done|].
    apply Forall_forall. intros c Hc. rewrite Forall_forall in Hw'.
    apply Hw'. apply list_elem_of_In. apply in_rev.
    by apply list_elem_of_In.
Qed.

End Normalize.

Section NormalForm.

Local Abbreviation ws := PyStr.isspace.

Lemma lower_char_idem c : PyStr.lower_char (PyStr.lower_char c) = PyStr.lower_char c.
Proof. destruct c as [[] [] [] [] [] [] [] []]; vm_compute; reflexivity. Qed.

Lemma isspace_lower c : ws (PyStr.lower_char c) = ws c.
Proof. destruct c as [[] [] [] [] [] [] [] []]; vm_compute; reflexivity. Qed.

Lemma lstrip_by_lower s :
  PyStr.lstrip_by ws (PyStr.lower s) = PyStr.lower (PyStr.lstrip_by ws s).
Proof.
  induction s as [|c s IH]; [done|]. simpl. rewrite isspace_lower.
  by destruct (ws c).
Qed.

(** Stripping and lower-casing can be done in either order. *)
Lemma strip_lower s : PyStr.strip (PyStr.lower s) = PyStr.lower (PyStr.strip s).
Proof.
  unfold PyStr.strip, PyStr.strip_by, PyStr.rstrip_by.
  rewrite lstrip_by_lower. unfold PyStr.lower at 1.
  rewrite <- map_rev. fold (PyStr.lower (rev (PyStr.lstrip_by ws s))).
  rewrite lstrip_by_lower. unfold PyStr.lower. by rewrite map_rev.
Qed.

Lemma collapse_go_nil b s : collapse_go b s = [] → blank s.
Proof.
  revert b. induction s as [|c s IH]; intros b H; [constructor|].
  simpl in H. destruct (ws c) eqn:Hc; [|done].
  destruct b; [|done]. constructor; [done|by eapply IH].
Qed.

Lemma single_spaced_last s :
  single_spaced s → ∀ c, last s = Some c → ws c = false.
Proof.
  induction s as [|a s IH]; [done|]. intros (_ & Ha & Hs) c Hc.
  destruct s as [|b s].
  - injection Hc as <-. destruct (ws a) eqn:Hw; [|done].
    by destruct (Ha eq_refl) as (_ & c' & s'' & ? & _).
  - by apply IH.
Qed.

Lemma rstrip_by_id (p : ascii → bool) s :
  (∀ c, last s = Some c → p c = false) → PyStr.rstrip_by p s = s.
Proof.
  intros H. unfold PyStr.rstrip_by. rewrite lstrip_by_id.
  - apply rev_involutive.
  - intros c Hc. apply H. by rewrite <- (rev_involutive s), last_rev.
Qed.

Lemma single_spaced_lower s : single_spaced s → PyStr.lower s = s.
Proof.
  induction s as [|c s IH]; [done|]. intros (Hc & _ & Hs).
  simpl. by rewrite Hc, IH.
Qed.

Lemma single_spaced_collapse s : single_spaced s → collapse_go false s = s.
Proof.
  induction s as [|c s IH]; [done|]. intros (_ & Hc & Hs). simpl.
  destruct (ws c) eqn:Hw; [|by rewrite IH].
  destruct (Hc eq_refl) as (-> & c' & s'' & -> & Hc').
  specialize (IH Hs). simpl in *. rewrite Hc' in *. by rewrite IH.
Qed.

(** The collapse of a lower-case text that does not end in white space is
    single spaced. *)
Lemma collapse_single_spaced u :
  Forall (λ c, PyStr.lower_char c = c) u →
  (∀ c, last u = Some c → ws c = false) →
  single_spaced (collapse_go false u)
  ∧ single_spaced (collapse_go true u)
  ∧ (u ≠ [] → ∃ c' t, collapse_go true u = c' :: t ∧ ws c' = false).
Proof.
  induction u as [|c u IH]; intros Hl Hlast; [done|].
  apply Forall_cons in Hl as [Hc Hl].
  assert (Hlast' : ∀ c0, last u = Some c0 → ws c0 = false).
  { intros c0 H0. apply Hlast. by destruct u. }
  destruct (IH Hl Hlast') as (IH0 & IH1 & IH2). simpl.
  destruct (ws c) eqn:Hw.
  - assert (Hne : u ≠ []).
    { intros ->. specialize (Hlast c eq_refl). congruence. }
    destruct (IH2 Hne) as (c' & t & Hct & Hc').
    split; [|split; [done|eauto]].
    simpl. split; [done|]. split; [|done]. intros _. split; [done|]. eauto.
  - split; [|split; [|eauto]]; simpl; (split; [done|]); (split; [|done]);
      intros Hw'; congruence.
Qed.

Lemma normalize_name_normal name : normal_key (normalize_name name).
Proof.
  rewrite normalize_name_collapse.
  set (t := PyStr.strip name).
  assert (Hends : ∀ c, head t = Some c ∨ last t = Some c → ws c = false)
    by (intros c; apply strip_by_ends).
  assert (Hl : Forall (λ c, PyStr.lower_char c = c) (PyStr.lower t)).
  { apply Forall_forall. intros c Hc. unfold PyStr.lower in Hc.
    apply list_elem_of_fmap in Hc as (c0 & -> & _). apply lower_char_idem. }
  assert (Hlast : ∀ c, last (PyStr.lower t) = Some c → ws c = false).
  { intros c Hc. unfold PyStr.lower in Hc.
    change (map PyStr.lower_char t) with (PyStr.lower_char <$> t) in Hc.
    rewrite fmap_last in Hc. destruct (last t) as [c0|] eqn:Hc0; [|done].
    injection Hc as <-. rewrite isspace_lower. apply Hends. by right. }
  destruct (collapse_single_spaced _ Hl Hlast) as (H0 & _).
  split; [done|]. intros c Hc.
  destruct t as [|c0 t'] eqn:Ht; [done|]. simpl in Hc.
  assert (Hc0 : ws c0 = false) by (apply Hends; by left).
  rewrite isspace_lower, Hc0 in Hc. injection Hc as <-.
  by rewrite isspace_lower.
Qed.

Lemma normal_key_fixed u : normal_key u → normalize_name u = u.
Proof.
  intros [Hs Hh]. rewrite normalize_name_collapse.
  assert (PyStr.strip u = u) as ->.
  { unfold PyStr.strip, PyStr.strip_by. rewrite (lstrip_by_id ws u Hh).
    apply rstrip_by_id. by apply single_spaced_last. }
  rewrite single_spaced_lower by done. by apply single_spaced_collapse.
Qed.

End NormalForm.

(** X11: the key of a name is empty exactly when the name consists of white
    space only (the empty name included); such candidates are the ones that
    the test [not key] of the filter drops. *)
Theorem normalize_name_empty_iff_blank (name : str) :
  normalize_name name = [] ↔ blank name.
Proof.
  rewrite normalize_name_collapse. unfold blank. split.
  - intros H. apply collapse_go_nil in H.
    apply (strip_by_nil PyStr.isspace).
    destruct (PyStr.strip name) as [|c t] eqn:Ht; [done|].
    pose proof (strip_by_ends PyStr.isspace name c) as Hc.
    fold (PyStr.strip name) in Hc. rewrite Ht in Hc.
    specialize (Hc (or_introl eq_refl)).
    apply Forall_cons in H as [Hw _]. rewrite isspace_lower in Hw. congruence.
  - intros H. apply (strip_by_nil PyStr.isspace) in H.
    unfold PyStr.strip. by rewrite H.
Qed.

(** X12: normalising is idempotent, and its results are in normal form:
    lower case, no white space at either end, and single spaces as the only
    white space. *)
Theorem normalize_name_idempotent (name : str) :
  normalize_name (normalize_name name) = normalize_name name
  ∧ normal_key (normalize_name name)
  ∧ ∀ c, last (normalize_name name) = Some c → PyStr.isspace c = false.
Proof.
  pose proof (normalize_name_normal name) as Hn.
  split; [by apply normal_key_fixed|]. split; [done|].
  apply single_spaced_last, Hn.
Qed.

(** X13: the texts that normalising leaves unchanged are exactly the keys in
    normal form. *)
Theorem normalize_name_fixed_points (u : str) :
  normalize_name u = u ↔ normal_key u.
Proof.
  split; [|apply normal_key_fixed].
  intros <-. apply normalize_name_normal.
Qed.

(** X14: names that differ only in the case of their letters have the same
    key. *)
Theorem normalize_name_ignores_case (name1 name2 : str) :
  PyStr.lower name1 = PyStr.lower name2 →
  normalize_name name1 = normalize_name name2.
Proof.
  intros H. rewrite !normalize_name_collapse, <- !strip_lower. by rewrite H.
Qed.

Lemma normalize_name_ignores_case_witness :
  normalize_name (py "ACME GmbH") = normalize_name (py "acme gmbh").
Proof.
  apply (normalize_name_ignores_case (py "ACME GmbH") (py "acme gmbh")).
  vm_compute. reflexivity.
Defined.

(** X15: white space before and after a name does not change its key. *)
Theorem normalize_name_ignores_outer_space (w name w' : str) :
  blank w → blank w' →
  normalize_name (w ++ name ++ w') = normalize_name name.
Proof.
  intros Hw Hw'. rewrite !normalize_name_collapse. unfold PyStr.strip.
  by rewrite strip_by_blank_around.
Qed.

Lemma normalize_name_ignores_outer_space_witness :
  normalize_name (py "  " ++ py "Acme   GmbH" ++ py " ")
  = normalize_name (py "Acme   GmbH").
Proof.
  apply (normalize_name_ignores_outer_space (py "  ") (py "Acme   GmbH")
           (py " "));
    unfold blank; repeat constructor.
Defined.

(** ** What the name filter rejects, exactly *)

Section Rejection.

Lemma last_or_Some a s : is_Some (last_or (Some a) s).
Proof. revert a. induction s as [|b s IH]; intros a; simpl; [by eexists|done]. Qed.

Lemma last_or_None s : last_or None s = None → s = [].
Proof.
  destruct s as [|a s]; [done|]. simpl. intros H.
  destruct (last_or_Some a s) as [x Hx]. congruence.
Qed.

(** A search that succeeds found a match at some position. *)
Lemma search_from_inv ic r s : ∀ prev,
  search_from ic r prev s = true →
  ∃ pre post, s = pre ++ post
              ∧ is_Some (match_at ic r (last_or prev pre) post).
Proof.
  induction s as [|c s IH]; intros prev H.
  - exists [], []. split; [done|]. simpl in *.
    destruct (match_at ic r prev []); [by eexists|done].
  - cbn [search_from] in H.
    destruct (match_at ic r prev (c :: s)) as [x|] eqn:Hm.
    + exists [], (c :: s). split; [done|]. simpl. rewrite Hm. by eexists.
    + apply IH in H as (pre & post & -> & Hp). by exists (c :: pre), post.
Qed.

(** A run of literals that matched read a text equal to it up to case. *)
Lemma rmatch_Lits_inv {A} w : ∀ s prev (k : option ascii → str → option A),
  is_Some (rmatch true (Lits w) prev s k) →
  ∃ s1 s2, s = s1 ++ s2 ∧ PyStr.lower s1 = PyStr.lower w
           ∧ is_Some (k (last_or prev s1) s2).
Proof.
  induction w as [|c w IH]; intros s prev k H.
  - by exists [], s.
  - cbn [Lits] in H. rewrite rmatch_Cat in H. cbn [rmatch] in H.
    destruct s as [|a s]; [by destruct H|].
    unfold char_eqb in H. case_bool_decide as Ha; [|by destruct H].
    apply IH in H as (s1 & s2 & -> & Hl & Hk).
    exists (a :: s1), s2. split; [done|]. split; [|done].
    simpl. by rewrite Ha, Hl.
Qed.

Lemma lower_app s1 s2 :
  PyStr.lower (s1 ++ s2) = PyStr.lower s1 ++ PyStr.lower s2.
Proof. apply map_app. Qed.

Lemma search_prefix_inv w name :
  PyStr.lower w = w →
  Re.search true (Cat Bos (Lits w)) name = true →
  starts_with w (PyStr.lower name).
Proof.
  intros Hw H. apply search_from_inv in H as (pre & post & -> & Hm).
  unfold match_at in Hm. rewrite rmatch_Cat in Hm. cbn [rmatch] in Hm.
  destruct (last_or None pre) eqn:Hp; [by destruct Hm|].
  apply last_or_None in Hp as ->.
  apply rmatch_Lits_inv in Hm as (s1 & s2 & -> & Hl & _).
  exists (PyStr.lower s2). simpl. rewrite lower_app. congruence.
Qed.

Lemma lower_char_lf a : PyStr.lower_char a = "010"%char → a = "010"%char.
Proof.
  destruct a as [[] [] [] [] [] [] [] []]; vm_compute; intros H;
    (reflexivity || discriminate H).
Qed.

Lemma search_exact_inv w name :
  PyStr.lower w = w →
  Re.search true (Cat Bos (Cat (Lits w) Eos)) name = true →
  PyStr.lower name = w ∨ PyStr.lower name = w ++ ["010"%char].
Proof.
  intros Hw H. apply search_from_inv in H as (pre & post & -> & Hm).
  unfold match_at in Hm. rewrite rmatch_Cat in Hm. cbn [rmatch] in Hm.
  destruct (last_or None pre) eqn:Hp; [by destruct Hm|].
  apply last_or_None in Hp as ->.
  apply rmatch_Lits_inv in Hm as (s1 & s2 & -> & Hl & Hk).
  cbn beta in Hk. simpl. rewrite lower_app, Hl, Hw.
  destruct s2 as [|c [|c' s2]]; simpl in Hk.
  - left. by rewrite app_nil_r.
  - case_bool_decide as Hc; [|by destruct Hk]. subst c. by right.
  - by destruct Hk.
Qed.

Lemma search_exact_lf w name :
  PyStr.lower w = w → PyStr.lower name = w ++ ["010"%char] →
  Re.search true (Cat Bos (Cat (Lits w) Eos)) name = true.
Proof.
  intros Hw H. apply lower_split in H as (s1 & s2 & -> & H1 & H2).
  destruct s2 as [|a [|b s2]]; try discriminate H2.
  injection H2 as Ha. apply lower_char_lf in Ha as ->.
  apply (search_from_at true _ [] None). unfold match_at.
  rewrite rmatch_Cat. cbn [rmatch last_or].
  rewrite rmatch_Lits by congruence. by eexists.
Qed.

Lemma search_contains_inv w name :
  PyStr.lower w = w → Re.search true (Lits w) name = true →
  contains w (PyStr.lower name).
Proof.
  intros Hw H. apply search_from_inv in H as (pre & post & -> & Hm).
  apply rmatch_Lits_inv in Hm as (s1 & s2 & -> & Hl & _).
  exists (PyStr.lower pre), (PyStr.lower s2).
  rewrite !lower_app. congruence.
Qed.

Lemma search_at_word_end_inv w name :
  PyStr.lower w = w → is_word_opt (last w) = true →
  Re.search true (Cat (Lits w) WordB) name = true →
  contains_at_word_end w (PyStr.lower name).
Proof.
  intros Hw Hlast H. apply search_from_inv in H as (pre & post & -> & Hm).
  unfold match_at in Hm. rewrite rmatch_Cat in Hm.
  apply rmatch_Lits_inv in Hm as (s1 & s2 & -> & Hl & Hk).
  cbn [rmatch] in Hk.
  destruct (at_wordb (last_or (last_or None pre) s1) s2) eqn:Hb;
    [|by destruct Hk].
  exists (PyStr.lower pre), (PyStr.lower s2).
  split; [rewrite !lower_app; congruence|].
  assert (Hne : s1 ≠ []).
  { intros ->. simpl in Hl. rewrite Hw in Hl. by subst w. }
  unfold at_wordb in Hb. rewrite last_or_last in Hb by done.
  assert (Hw1 : is_word_opt (last s1) = true).
  { rewrite <- Hlast, <- Hw, <- Hl. unfold PyStr.lower.
    change (map PyStr.lower_char s1) with (PyStr.lower_char <$> s1).
    rewrite fmap_last. destruct (last s1); [|done].
    simpl. by rewrite isword_lower. }
  rewrite Hw1 in Hb. destruct s2 as [|c s2]; [done|].
  simpl in *. rewrite isword_lower. by destruct (PyStr.isword c).
Qed.

(** The names of [non_company] do not look like companies. *)
Lemma non_company_looks_false name :
  non_company name → looks_like_company name = false.
Proof.
  intros [H|[H|[H|[H|[H|[H|[H|[H|(H1 & H2 & H3)]]]]]]]].
  - apply (looks_like_company_bad_pattern (Cat Bos (Lits (py "siehe"))));
      [unfold bad_patterns; simpl; tauto|by apply search_prefix].
  - apply (looks_like_company_bad_pattern
             (Cat Bos (Cat (Lits (py "n/a")) Eos)));
      [unfold bad_patterns; simpl; tauto|by apply search_exact].
  - apply (looks_like_company_bad_pattern (Cat Bos (Lits (py "keine"))));
      [unfold bad_patterns; simpl; tauto|by apply search_prefix].
  - apply (looks_like_company_bad_pattern (Cat Bos (Lits (py "unbekannt"))));
      [unfold bad_patterns; simpl; tauto|by apply search_prefix].
  - apply (looks_like_company_bad_pattern (Cat Bos (Lits (py "sample"))));
      [unfold bad_patterns; simpl; tauto|by apply search_prefix].
  - apply (looks_like_company_bad_pattern (Lits (py "http")));
      [unfold bad_patterns; simpl; tauto|by apply search_contains].
  - apply (looks_like_company_bad_pattern (Cat (Lits (py ".com")) WordB));
      [unfold bad_patterns; simpl; tauto|by apply search_at_word_end].
  - apply (looks_like_company_bad_pattern (Cat (Lits (py ".de")) WordB));
      [unfold bad_patterns; simpl; tauto|by apply search_at_word_end].
  - by apply looks_like_company_short_token.
Qed.

End Rejection.

(** X16: [looks_like_company] rejects a name exactly when the name is one of
    [non_company], or is n/a (in any case) followed by one line feed: the
    pattern for n/a ends in a dollar sign, which also holds before a last
    line feed.  Every other name is accepted. *)
Theorem looks_like_company_rejects_exactly (name : str) :
  looks_like_company name = false
  ↔ non_company name ∨ PyStr.lower name = py "n/a" ++ ["010"%char].
Proof.
  split.
  - unfold looks_like_company.
    destruct (existsb _ bad_patterns) eqn:Hb.
    + intros _. apply existsb_exists in Hb as (bp & Hin & Hs).
      unfold bad_patterns in Hin. cbn [In] in Hin.
      destruct Hin as [<-|[<-|[<-|[<-|[<-|[<-|[<-|[<-|[]]]]]]]]].
      * left. left. by apply search_prefix_inv.
      * apply search_exact_inv in Hs; [|done].
        destruct Hs as [Hs|Hs]; [left; right; by left|by right].
      * left. do 2 right. left. by apply search_prefix_inv.
      * left. do 3 right. left. by apply search_prefix_inv.
      * left. do 4 right. left. by apply search_prefix_inv.
      * left. do 5 right. left. by apply search_contains_inv.
      * left. do 6 right. left. by apply search_at_word_end_inv.
      * left. do 7 right. left. by apply search_at_word_end_inv.
    + destruct ((length (PyStr.split name) =? 1) && PyStr.isalpha name
                && (length name <=? 3)) eqn:Hc; [|done].
      intros _. left. do 8 right.
      apply andb_true_iff in Hc as [Hc Hlen].
      apply andb_true_iff in Hc as [_ Ha]. apply Nat.leb_le in Hlen.
      unfold PyStr.isalpha in Ha. destruct name as [|c name]; [done|].
      split; [done|]. split; [|done].
      apply Forall_forall. intros x Hx.
      apply (proj1 (forallb_forall _ _) Ha). by apply list_elem_of_In.
  - intros [H|H]; [by apply non_company_looks_false|].
    apply (looks_like_company_bad_pattern
             (Cat Bos (Cat (Lits (py "n/a")) Eos)));
      [unfold bad_patterns; simpl; tauto|by apply search_exact_lf].
Qed.

(** A name that is none of those is accepted, for instance this one, which
    holds a domain other than .com and .de. *)
Example other_domain_accepted :
  looks_like_company (py "vegan-snacks.org") = true
  ∧ looks_like_company (py "N/A
") = false.
Proof. split; vm_compute; reflexivity. Qed.

(** ** Lines of plain fields, parsed back *)

Section PlainFields.

Variable d : ascii.
Hypothesis d_not_quote : d ≠ dquote.
Hypothesis d_not_space : PyStr.isspace d = false.

Lemma quotes_none s : dquote ∉ s → quotes s = 0.
Proof.
  induction s as [|c s IH]; [done|]. intros H.
  apply not_elem_of_cons in H as [Hc Hs]. cbn [quotes].
  rewrite bool_decide_eq_false_2 by done. by rewrite IH.
Qed.

Lemma cut_skip f : d ∉ f → ∀ rest field,
  cut d (f ++ rest) field = cut d rest (field ++ f).
Proof.
  induction f as [|c f IH]; intros Hf rest field.
  - by rewrite app_nil_r.
  - apply not_elem_of_cons in Hf as [Hc Hf]. cbn [app cut].
    rewrite bool_decide_eq_false_2 by done. cbn [andb].
    rewrite IH by done. by rewrite <- app_assoc.
Qed.

Lemma joined_quotes fs :
  Forall (λ f, dquote ∉ f) fs → quotes (join_fields d fs) = 0.
Proof.
  destruct fs as [|f fs]; [done|]. intros H.
  apply Forall_cons in H as [Hf H]. cbn [join_fields].
  rewrite quotes_app, (quotes_none f Hf). cbn [Nat.add].
  induction H as [|g fs Hg _ IH]; [done|]. cbn [map concat app quotes].
  rewrite bool_decide_eq_false_2 by done.
  by rewrite quotes_app, (quotes_none g Hg), IH.
Qed.

(** The cut of joined fields gives the fields back. *)
Lemma cut_join fs : ∀ f field,
  Forall (λ f, (d ∉ f) ∧ (dquote ∉ f)) (f :: fs) →
  cut d (join_fields d (f :: fs)) field = (field ++ f) :: fs.
Proof.
  induction fs as [|g fs IH]; intros f field H.
  - apply Forall_cons in H as [[Hf _] _]. simpl.
    rewrite cut_skip by done. done.
  - apply Forall_cons in H as [[Hf Hq] H]. cbn [join_fields map concat].
    rewrite cut_skip by done. cbn [app cut].
    rewrite bool_decide_eq_true_2 by done.
    change (g ++ concat (map (cons d) fs)) with (join_fields d (g :: fs)).
    rewrite joined_quotes.
    + cbn [andb Nat.even]. by rewrite IH.
    + eapply Forall_impl; [exact H|]. by intros ? [_ ?].
Qed.

Lemma strip_by_id (p : ascii → bool) f :
  Forall (λ c, p c = false) f → PyStr.strip_by p f = f.
Proof.
  intros H. unfold PyStr.strip_by. rewrite Forall_forall in H.
  rewrite (lstrip_by_id p f).
  - apply rstrip_by_id. intros c Hc. apply H. by apply last_Some_elem_of.
  - intros c Hc. apply H. destruct f; [done|]. injection Hc as <-. by left.
Qed.

Lemma strip_quotes_id f : dquote ∉ f → PyStr.strip_quotes f = f.
Proof.
  intros H. apply strip_by_id. apply Forall_forall. intros c Hc.
  apply bool_decide_eq_false_2. by intros ->.
Qed.

Lemma column_plain fs i :
  Forall (λ f, dquote ∉ f) fs → column fs i = nth i fs [].
Proof.
  intros H. unfold column. rewrite nth_lookup.
  destruct (fs !! i) as [f|] eqn:Hf; [|done]. simpl.
  apply strip_quotes_id.
  rewrite Forall_forall in H. apply H. by eapply list_elem_of_lookup_2.
Qed.

Lemma map_strip_plain fs :
  Forall (plain_field d) fs → map PyStr.strip fs = fs.
Proof.
  induction 1 as [|g gs (_ & _ & Hg) _ IH]; [done|].
  cbn [map]. by rewrite Hg, IH.
Qed.

(** The fields of a line of joined plain fields are those fields. *)
Lemma fields_join fs :
  Forall (plain_field d) fs → fs ≠ [] → fields d (join_fields d fs) = fs.
Proof.
  intros H Hne. unfold fields. rewrite split_cut.
  destruct fs as [|f fs]; [done|]. rewrite cut_join.
  - rewrite app_nil_l. by apply map_strip_plain.
  - eapply Forall_impl; [exact H|]. by intros ? (? & ? & _).
Qed.

(** A line with a delimiter in it is not blank. *)
Lemma joined_not_blank fs :
  2 ≤ length fs → PyStr.strip (join_fields d fs) ≠ [].
Proof.
  intros Hlen Hs. apply (strip_by_nil PyStr.isspace) in Hs.
  destruct fs as [|f [|g fs]]; simpl in Hlen; try lia.
  simpl in Hs. apply Forall_app in Hs as [_ Hs].
  apply Forall_cons in Hs as [Hd _]. congruence.
Qed.

End PlainFields.

(** X17: six or more plain fields joined by commas parse back to the row of
    the first six of them; fields after the sixth are ignored. *)
Theorem parse_line_comma_round_trip (fs : list str) :
  6 ≤ length fs → Forall (plain_field ","%char) fs →
  parse_line 6 (join_fields ","%char fs) = Some (row_of_fields fs).
Proof.
  intros Hlen H. unfold parse_line.
  rewrite bool_decide_eq_false_2
    by (apply joined_not_blank; [done|lia]).
  assert (Hne : fs ≠ []) by (intros ->; simpl in Hlen; lia).
  rewrite (fields_join ","%char) by done.
  replace (length fs <? 6) with false by (symmetry; apply Nat.ltb_ge; lia).
  replace (6 <=? length fs) with true by (symmetry; apply Nat.leb_le; lia).
  unfold row_of_fields. rewrite !column_plain; [done|..];
    (eapply Forall_impl; [exact H|]; by intros ? (_ & ? & _)).
Qed.

Lemma parse_line_comma_round_trip_witness :
  parse_line 6 (py "Acme GmbH,Snacks,DE,Riegel mit Protein,,A,extra")
  = Some {| Company := py "Acme GmbH"; Segment := py "Snacks";
            Country_Region := py "DE";
            WhyRelevant := py "Riegel mit Protein";
            Website := []; Priority := py "A" |}.
Proof.
  apply (parse_line_comma_round_trip
           (map py ["Acme GmbH"; "Snacks"; "DE"; "Riegel mit Protein"; "";
                    "A"; "extra"]%string)).
  - simpl. lia.
  - repeat constructor; try (vm_compute; reflexivity);
      intros Hin; apply list_elem_of_In in Hin; vm_compute in Hin;
      intuition discriminate.
Defined.

(** X18: six or more fields without a comma, plain for the semicolon and
    joined by semicolons, parse back to the row of the first six: the comma
    rule finds one field, so the semicolon rule is used. *)
Theorem parse_line_semicolon_round_trip (fs : list str) :
  6 ≤ length fs →
  Forall (λ f, plain_field ";"%char f ∧ ","%char ∉ f) fs →
  parse_line 6 (join_fields ";"%char fs) = Some (row_of_fields fs).
Proof.
  intros Hlen H. unfold parse_line.
  rewrite bool_decide_eq_false_2
    by (apply joined_not_blank; [done|lia]).
  assert (Hne : fs ≠ []) by (intros ->; simpl in Hlen; lia).
  assert (Hplain : Forall (plain_field ";"%char) fs).
  { eapply Forall_impl; [exact H|]. by intros ? [? _]. }
  assert (Hcomma : ","%char ∉ join_fields ";"%char fs).
  { destruct fs as [|f fs]; [by apply not_elem_of_nil|].
    apply Forall_cons in H as [[_ Hf] H]. cbn [join_fields].
    intros Hin. apply elem_of_app in Hin as [Hin|Hin]; [done|].
    clear Hlen Hne Hplain.
    induction H as [|g gs [_ Hg] _ IH]; [by apply elem_of_nil in Hin|].
    cbn [map concat app] in Hin.
    apply elem_of_cons in Hin as [Hin|Hin]; [discriminate Hin|].
    apply elem_of_app in Hin as [Hin|Hin]; [done|by apply IH]. }
  assert (Hone : length (fields ","%char (join_fields ";"%char fs)) = 1).
  { unfold fields. rewrite length_map, split_cut.
    rewrite <- (app_nil_r (join_fields _ _)). by rewrite cut_skip. }
  rewrite Hone. change (1 <? 6) with true. cbv iota.
  rewrite (fields_join ";"%char) by done.
  replace (6 <=? length fs) with true by (symmetry; apply Nat.leb_le; lia).
  unfold row_of_fields. rewrite !column_plain; [done|..];
    (eapply Forall_impl; [exact Hplain|]; by intros ? (_ & ? & _)).
Qed.

Lemma parse_line_semicolon_round_trip_witness :
  parse_line 6 (py "Beta AG;Tiernahrung;CH;Premium;;B")
  = Some {| Company := py "Beta AG"; Segment := py "Tiernahrung";
            Country_Region := py "CH"; WhyRelevant := py "Premium";
            Website := []; Priority := py "B" |}.
Proof.
  apply (parse_line_semicolon_round_trip
           (map py ["Beta AG"; "Tiernahrung"; "CH"; "Premium"; ""; "B"]%string)).
  - simpl. lia.
  - repeat constructor; try (vm_compute; reflexivity);
      intros Hin; apply list_elem_of_In in Hin; vm_compute in Hin;
      intuition discriminate.
Defined.

(** ** Texts, line by line *)

Section Lines.

Implicit Types (s a b line : str).

Lemma parse_line_blank n line : blank line → parse_line n line = None.
Proof.
  intros H. unfold parse_line, PyStr.strip.
  rewrite bool_decide_eq_true_2; [done|]. by apply strip_by_nil.
Qed.

Lemma splitlines_go_blank s :
  blank s → ∀ line, blank line → Forall blank (PyStr.splitlines_go s line).
Proof.
  unfold blank. induction s as [|c s IH]; intros Hs line Hline.
  - destruct line as [|x line]; cbn [PyStr.splitlines_go]; [apply Forall_nil_2|].
    apply Forall_cons. split; [exact Hline|apply Forall_nil_2].
  - apply Forall_cons in Hs as [Hc Hs]. specialize (IH Hs).
    cbn [PyStr.splitlines_go].
    assert (Hsnoc : Forall (λ c, PyStr.isspace c = true) (line ++ [c])).
    { apply Forall_app. split; [done|]. by repeat constructor. }
    assert (Hnil : Forall (λ c : ascii, PyStr.isspace c = true) [])
      by constructor.
    destruct (bool_decide (c = "013"%char)).
    + destruct s as [|c' s'].
      * constructor; [done|]. by apply IH.
      * destruct (bool_decide (c' = "010"%char)) eqn:Hc'.
        -- apply bool_decide_eq_true in Hc'. subst c'.
           constructor; [done|].
           specialize (IH [] Hnil). cbn [PyStr.splitlines_go] in IH.
           change (bool_decide ("010"%char = "013"%char)) with false in IH.
           change (PyStr.islinebreak "010"%char) with true in IH.
           cbv iota in IH. by apply Forall_cons in IH as [_ IH].
        -- constructor; [done|]. by apply IH.
    + destruct (PyStr.islinebreak c).
      * constructor; [done|]. by apply IH.
      * by apply IH.
Qed.

(** A line feed after [a] ends the last line of [a]; an empty line gives no
    row, so the rows are those of [a] followed by those of [b]. *)
Lemma splitlines_go_line_feed n a b :
  ∀ line,
    omap (parse_line n) (PyStr.splitlines_go (a ++ "010"%char :: b) line)
    = omap (parse_line n) (PyStr.splitlines_go a line)
      ++ omap (parse_line n) (PyStr.splitlines_go b []).
Proof.
  assert (Hnil : parse_line n [] = None) by (apply parse_line_blank; constructor).
  induction a as [|c a IH]; intros line.
  - cbn [app PyStr.splitlines_go].
    change (bool_decide ("010"%char = "013"%char)) with false.
    change (PyStr.islinebreak "010"%char) with true. cbv iota.
    destruct line as [|x line]; cbn [omap list_omap app].
    + by rewrite Hnil.
    + by destruct (parse_line n (x :: line)).
  - cbn [app PyStr.splitlines_go].
    destruct (bool_decide (c = "013"%char)).
    + destruct a as [|c' a'].
      * cbn [app].
        change (bool_decide ("010"%char = "010"%char)) with true. cbv iota.
        cbn [PyStr.splitlines_go omap list_omap].
        destruct (parse_line n line); by rewrite ?app_nil_r.
      * cbn [app]. destruct (bool_decide (c' = "010"%char)) eqn:Hc'.
        -- apply bool_decide_eq_true in Hc'. subst c'.
           specialize (IH []). cbn [app PyStr.splitlines_go] in IH.
           change (bool_decide ("010"%char = "013"%char)) with false in IH.
           change (PyStr.islinebreak "010"%char) with true in IH.
           cbv iota in IH. cbn [omap list_omap] in IH. rewrite Hnil in IH.
           cbn [omap list_omap]. rewrite IH.
           by destruct (parse_line n line).
        -- change (c' :: a' ++ "010"%char :: b)
             with ((c' :: a') ++ "010"%char :: b).
           cbn [omap list_omap]. rewrite (IH []).
           by destruct (parse_line n line).
    + destruct (PyStr.islinebreak c).
      * cbn [omap list_omap]. rewrite (IH []).
        by destruct (parse_line n line).
      * apply IH.
Qed.

End Lines.

(** X19. A text of white space only has no rows, and a reply with such a
    text is an empty batch. *)
Theorem blank_text_gives_no_rows (text : str) (n : nat) :
  blank text →
  parse_csv_block text n = []
  ∧ ∀ ask k seg avoid_list,
      ask k seg avoid_list = Text text →
      generate_batch ask k seg avoid_list = Some [].
Proof.
  intros Hb.
  assert (H : ∀ m, parse_csv_block text m = []).
  { intros m. unfold parse_csv_block, PyStr.splitlines.
    rewrite parse_lines_omap.
    pose proof (splitlines_go_blank text Hb [] (Forall_nil_2 _)) as Hl.
    induction Hl as [|line lines Hline _ IH]; [done|].
    cbn [omap list_omap]. by rewrite parse_line_blank. }
  split; [apply H|].
  intros ask k seg avoid_list Hask. unfold generate_batch. rewrite Hask.
  destruct text; [done|]. by rewrite H.
Qed.

Lemma blank_text_gives_no_rows_witness :
  parse_csv_block (py "  " ++ ["010"%char; "009"%char; "013"%char; "010"%char]) 6
  = []
  ∧ ∀ ask k seg avoid_list,
      ask k seg avoid_list
      = Text (py "  " ++ ["010"%char; "009"%char; "013"%char; "010"%char]) →
      generate_batch ask k seg avoid_list = Some [].
Proof.
  apply (blank_text_gives_no_rows
           (py "  " ++ ["010"%char; "009"%char; "013"%char; "010"%char]) 6).
  repeat constructor.
Defined.

(** X20. The rows of two texts put one after the other with a line feed
    between them are the rows of the first followed by the rows of the
    second, whatever the first text ends with. *)
Theorem parse_csv_block_line_feed (a b : str) (n : nat) :
  parse_csv_block (a ++ "010"%char :: b) n
  = parse_csv_block a n ++ parse_csv_block b n.
Proof.
  unfold parse_csv_block, PyStr.splitlines. rewrite !parse_lines_omap.
  apply splitlines_go_line_feed.
Qed.
